(** * A shallow embedding of the B+Tree index of [wanderingj/db]

    Sources embedded here:
    - [src/page/b_plus_tree_leaf_page.cpp]      (module [BPlusTreeLeafPage])
    - [src/page/b_plus_tree_internal_page.cpp]  (module [BPlusTreeInternalPage])
    - [src/index/b_plus_tree.cpp]               (module [BPlusTree])
    - [src/include/concurrency/transaction.h]   (module [Transaction])

    Conventions.
    - A C++ [int] is a [Z].  Sizes and slot indices stay far below 2^31 (a
      page holds at most a few hundred slots), so no arithmetic here wraps;
      integer division is the truncating [Z.quot] of C++.
    - A node page overlays a header and a slot array on a fixed byte buffer.
      The slot array is a [list] whose length is the number of slots that
      physically fit in the buffer; the [size_] header field is kept apart
      from it, as in the source, so slots at or beyond [size_] keep whatever
      they held.  An access outside the buffer is undefined behaviour in
      C++; it is the result [None] here.
    - A key comparator is a function to [Z] (negative, zero, positive). *)

From stdpp Require Import gmap strings list.
From Stdlib Require Import ZArith Lia.

Local Open Scope Z_scope.

Definition page_id_t := Z.
Definition INVALID_PAGE_ID : page_id_t := -1.
Definition HEADER_PAGE_ID : page_id_t := 0.

(** ** Slot arrays and counted loops *)

Section SlotArray.
Context {T : Type}.

(** [array[i]] as an rvalue. *)
Definition slot_read (a : list T) (i : Z) : option T :=
  if decide (0 ≤ i) then a !! Z.to_nat i else None.

(** [array[i] = x]. *)
Definition slot_write (a : list T) (i : Z) (x : T) : option (list T) :=
  if decide (0 ≤ i < Z.of_nat (length a))
  then Some (<[Z.to_nat i := x]> a) else None.
End SlotArray.

Section Loops.
Context {S : Type}.

(** [n] iterations of [body], the index starting at [i] and moving by
    [step] after each one. *)
Fixpoint iterate (n : nat) (i step : Z) (body : Z → S → option S) (s : S)
  : option S :=
  match n with
  | O => Some s
  | Datatypes.S n' =>
      match body i s with
      | Some s' => iterate n' (i + step) step body s'
      | None => None
      end
  end.

(** [for (int i = lo; i < hi; i++) body] *)
Definition for_up (lo hi : Z) := iterate (Z.to_nat (hi - lo)) lo 1.

(** [for (int i = hi; i >= lo; i--) body] *)
Definition for_down (hi lo : Z) := iterate (Z.to_nat (hi - lo + 1)) hi (-1).
End Loops.

(** ** The common node header ([BPlusTreePage]) *)

Module BPlusTreePage.

Inductive IndexPageType := INVALID_INDEX_PAGE | LEAF_PAGE | INTERNAL_PAGE.

(** Modelled from the spec: the common header (page_type, lsn, size,
    max_size, parent_page_id, page_id) and its accessors, which the
    repository defines in [b_plus_tree_page.{h,cpp}]. *)
Record header := Header {
  page_type_ : IndexPageType;
  lsn_ : Z;
  size_ : Z;
  max_size_ : Z;
  parent_page_id_ : page_id_t;
  page_id_ : page_id_t
}.

Definition IsLeafPage (h : header) : bool :=
  match page_type_ h with LEAF_PAGE => true | _ => false end.
Definition IsRootPage (h : header) : bool :=
  bool_decide (parent_page_id_ h = INVALID_PAGE_ID).
Definition SetPageType (h : header) (t : IndexPageType) : header :=
  Header t (lsn_ h) (size_ h) (max_size_ h) (parent_page_id_ h) (page_id_ h).
Definition SetSize (h : header) (n : Z) : header :=
  Header (page_type_ h) (lsn_ h) n (max_size_ h) (parent_page_id_ h) (page_id_ h).
Definition SetMaxSize (h : header) (n : Z) : header :=
  Header (page_type_ h) (lsn_ h) (size_ h) n (parent_page_id_ h) (page_id_ h).
Definition SetParentPageId (h : header) (p : page_id_t) : header :=
  Header (page_type_ h) (lsn_ h) (size_ h) (max_size_ h) p (page_id_ h).
Definition SetPageId (h : header) (p : page_id_t) : header :=
  Header (page_type_ h) (lsn_ h) (size_ h) (max_size_ h) (parent_page_id_ h) p.

End BPlusTreePage.

(** ** Leaf pages ([b_plus_tree_leaf_page.cpp]) *)

Module BPlusTreeLeafPage.
Import BPlusTreePage.

Section Leaf.
Context {KeyType ValueType : Type}.
(** [KeyComparator::operator()] *)
Variable comparator : KeyType → KeyType → Z.
(** [Insert] compares the comparator's [int] result with the key itself
    ([... == key]).  The operator this resolves to is declared with the
    key type, outside the files embedded here. *)
Variable int_eq_key : Z → KeyType → bool.
(** Layout constants of [Init] (configuration and page headers). *)
Variables PAGE_SIZE HEADER_SIZE sizeof_KeyType sizeof_ValueType : Z.

Definition MappingType : Type := KeyType * ValueType.

Record page := Page {
  hdr : header;
  next_page_id_ : page_id_t;
  array : list MappingType
}.

Definition GetSize (p : page) : Z := size_ (hdr p).
Definition GetMaxSize (p : page) : Z := max_size_ (hdr p).
Definition GetPageId (p : page) : page_id_t := page_id_ (hdr p).
Definition GetParentPageId (p : page) : page_id_t := parent_page_id_ (hdr p).
Definition with_hdr (p : page) (h : header) : page :=
  Page h (next_page_id_ p) (array p).
Definition with_array (p : page) (a : list MappingType) : page :=
  Page (hdr p) (next_page_id_ p) a.
Definition SetSize (p : page) (n : Z) : page :=
  with_hdr p (BPlusTreePage.SetSize (hdr p) n).

Definition GetNextPageId (p : page) : page_id_t := next_page_id_ p.

(** [next_page_id_ = next_page_id_;] the field is assigned to itself,
    the parameter is not used. *)
Definition SetNextPageId (p : page) (next_page_id : page_id_t) : page :=
  Page (hdr p) (next_page_id_ p) (array p).

Definition Init (p : page) (page_id parent_id : page_id_t) : page :=
  let p := with_hdr p (SetPageType (hdr p) LEAF_PAGE) in
  let p := SetSize p 0 in
  let p := with_hdr p (SetPageId (hdr p) page_id) in
  let p := with_hdr p (SetParentPageId (hdr p) parent_id) in
  let p := SetNextPageId p INVALID_PAGE_ID in
  with_hdr p (SetMaxSize (hdr p)
    ((PAGE_SIZE - HEADER_SIZE) `quot` (sizeof_KeyType + sizeof_ValueType))).

Definition GetItem (p : page) (index : Z) : option MappingType :=
  slot_read (array p) index.
Definition KeyAt (p : page) (index : Z) : option KeyType :=
  fst <$> slot_read (array p) index.

(** The loop of [KeyIndex] with [n] iterations left, at index [i]. *)
Fixpoint KeyIndex_from (p : page) (key : KeyType) (n : nat) (i : Z)
  : option Z :=
  match n with
  | O => Some (-1)
  | S n' =>
      item ← slot_read (array p) i;
      if decide (comparator item.1 key >= 0) then Some i
      else KeyIndex_from p key n' (i + 1)
  end.

Definition KeyIndex (p : page) (key : KeyType) : option Z :=
  KeyIndex_from p key (Z.to_nat (GetSize p)) 0.

(** The first loop of [Insert]: [inl sz] when it returned [GetSize()]
    from inside the loop, [inr i] when the loop was left with index [i]. *)
Fixpoint Insert_scan (p : page) (key : KeyType) (n : nat) (i : Z)
  : option (Z + Z) :=
  match n with
  | O => Some (inr i)
  | S n' =>
      item ← GetItem p i;
      if int_eq_key (comparator item.1 key) key then Some (inl (GetSize p))
      else if int_eq_key (comparator item.1 key) key then Some (inr i)
      else Insert_scan p key n' (i + 1)
  end.

(** Returns the page size after the call together with the page. *)
Definition Insert (p : page) (key : KeyType) (value : ValueType)
  : option (Z * page) :=
  r ← Insert_scan p key (Z.to_nat (GetSize p)) 0;
  match r with
  | inl sz => Some (sz, p)
  | inr i =>
      a ← for_down (GetSize p - 1) i
            (λ j a, x ← slot_read a j; slot_write a (j + 1) x) (array p);
      s ← slot_read a i;
      a ← slot_write a i (key, s.2);
      s ← slot_read a i;
      a ← slot_write a i (s.1, value);
      let p' := SetSize (with_array p a) (GetSize p + 1) in
      Some (GetSize p', p')
  end.

(** [this] is the recipient; [items] is the donor's slot array. *)
Definition CopyHalfFrom (p : page) (items : list MappingType) (size : Z)
  : option page :=
  let half := size - (size `quot` 2) in
  a ← for_up (size - half) size
        (λ i a, x ← slot_read items i; slot_write a (i - size + half) x)
        (array p);
  Some (SetSize (with_array p a) half).

(** Returns the donor and the recipient after the call. *)
Definition MoveHalfTo (p recipient : page) : option (page * page) :=
  recipient' ← CopyHalfFrom recipient (array p) (GetSize p);
  Some (SetSize p (GetSize p `quot` 2), recipient').

(** The loop of [Lookup]; [Some (Some v)] is [true] with [value = v],
    [Some None] is [false]. *)
Fixpoint Lookup_from (p : page) (key : KeyType) (n : nat) (i : Z)
  : option (option ValueType) :=
  match n with
  | O => Some None
  | S n' =>
      item ← slot_read (array p) i;
      if decide (comparator key item.1 = 0) then Some (Some item.2)
      else Lookup_from p key n' (i + 1)
  end.

Definition Lookup (p : page) (key : KeyType) : option (option ValueType) :=
  Lookup_from p key (Z.to_nat (GetSize p)) 0.

(** The search loop of [RemoveAndDeleteRecord]. *)
Fixpoint Remove_from (p : page) (key : KeyType) (n : nat) (i : Z)
  : option (Z * page) :=
  match n with
  | O => Some (GetSize p, p)
  | S n' =>
      item ← slot_read (array p) i;
      if decide (comparator key item.1 = 0) then
        a ← for_up (i + 1) (GetSize p)
              (λ j a, x ← slot_read a j; slot_write a (j - 1) x) (array p);
        let p' := SetSize (with_array p a) (GetSize p - 1) in
        Some (GetSize p', p')
      else Remove_from p key n' (i + 1)
  end.

Definition RemoveAndDeleteRecord (p : page) (key : KeyType)
  : option (Z * page) :=
  Remove_from p key (Z.to_nat (GetSize p)) 0.

(** Modelled from the spec: [IncreaseSize] is one of the shared accessors of
    the common header ([b_plus_tree_page.cpp]); it adds to [size_]. *)
Definition IncreaseSize (p : page) (amount : Z) : page :=
  SetSize p (GetSize p + amount).

(** [this] is the recipient; its size is read on every turn of the loop and
    raised once after it. *)
Definition CopyAllFrom (p : page) (items : list MappingType) (size : Z)
  : option page :=
  a ← for_up 0 size
        (λ i a, x ← slot_read items i; slot_write a (i + GetSize p) x)
        (array p);
  Some (IncreaseSize (with_array p a) size).

(** Returns the donor and the recipient after the call. *)
Definition MoveAllTo (p recipient : page) : option (page * page) :=
  recipient' ← CopyAllFrom recipient (array p) (GetSize p);
  Some (SetNextPageId (SetSize p 0) INVALID_PAGE_ID, recipient').

End Leaf.

Arguments page : clear implicits.
End BPlusTreeLeafPage.

(** ** Internal pages ([b_plus_tree_internal_page.cpp]) *)

Module BPlusTreeInternalPage.
Import BPlusTreePage.

Section Internal.
Context {KeyType : Type}.
Variable comparator : KeyType → KeyType → Z.
Variables PAGE_SIZE HEADER_SIZE sizeof_KeyType sizeof_ValueType : Z.

(** [ValueType] is [page_id_t] in every instantiation of the source. *)
Definition ValueType : Type := page_id_t.
Definition MappingType : Type := KeyType * ValueType.

Record page := Page {
  hdr : header;
  array : list MappingType
}.

Definition GetSize (p : page) : Z := size_ (hdr p).
Definition GetMaxSize (p : page) : Z := max_size_ (hdr p).
Definition GetPageId (p : page) : page_id_t := page_id_ (hdr p).
Definition GetParentPageId (p : page) : page_id_t := parent_page_id_ (hdr p).
Definition with_hdr (p : page) (h : header) : page := Page h (array p).
Definition with_array (p : page) (a : list MappingType) : page :=
  Page (hdr p) a.
Definition SetSize (p : page) (n : Z) : page :=
  with_hdr p (BPlusTreePage.SetSize (hdr p) n).

Definition Init (p : page) (page_id parent_id : page_id_t) : page :=
  let p := with_hdr p (SetPageType (hdr p) INTERNAL_PAGE) in
  let p := SetSize p 0 in
  let p := with_hdr p (SetPageId (hdr p) page_id) in
  let p := with_hdr p (SetParentPageId (hdr p) parent_id) in
  with_hdr p (SetMaxSize (hdr p)
    ((PAGE_SIZE - HEADER_SIZE) `quot` (sizeof_KeyType + sizeof_ValueType))).

Definition KeyAt (p : page) (index : Z) : option KeyType :=
  fst <$> slot_read (array p) index.
Definition ValueAt (p : page) (index : Z) : option ValueType :=
  snd <$> slot_read (array p) index.

(** [array[index].first = key] *)
Definition SetKeyAt (p : page) (index : Z) (key : KeyType) : option page :=
  s ← slot_read (array p) index;
  a ← slot_write (array p) index (key, s.2);
  Some (with_array p a).

(** [array[index].second = value] *)
Definition SetValueAt (p : page) (index : Z) (value : ValueType)
  : option page :=
  s ← slot_read (array p) index;
  a ← slot_write (array p) index (s.1, value);
  Some (with_array p a).

Fixpoint ValueIndex_from (p : page) (value : ValueType) (n : nat) (i : Z)
  : option Z :=
  match n with
  | O => Some (-1)
  | S n' =>
      v ← ValueAt p i;
      if decide (v = value) then Some i
      else ValueIndex_from p value n' (i + 1)
  end.

Definition ValueIndex (p : page) (value : ValueType) : option Z :=
  ValueIndex_from p value (Z.to_nat (GetSize p)) 0.

(** [while (i < GetSize() && comparator(key, KeyAt(i)) > 0) i++;]
    with [n] the distance of [i] from [GetSize()]; the result is the
    value of [i] after the loop. *)
Fixpoint Lookup_scan (p : page) (key : KeyType) (n : nat) (i : Z)
  : option Z :=
  match n with
  | O => Some i
  | S n' =>
      k ← KeyAt p i;
      if decide (comparator key k > 0) then Lookup_scan p key n' (i + 1)
      else Some i
  end.

Definition Lookup (p : page) (key : KeyType) : option ValueType :=
  i ← Lookup_scan p key (Z.to_nat (GetSize p - 1)) 1;
  if decide (i = GetSize p) then ValueAt p (GetSize p - 1)
  else
    k ← KeyAt p i;
    if decide (comparator key k < 0) then ValueAt p (i - 1)
    else ValueAt p i.

(** Three slot writes; the size field is not written. *)
Definition PopulateNewRoot (p : page) (old_value : ValueType)
    (new_key : KeyType) (new_value : ValueType) : option page :=
  p ← SetValueAt p 0 old_value;
  p ← SetKeyAt p 1 new_key;
  SetValueAt p 1 new_value.

Definition InsertNodeAfter (p : page) (old_value : ValueType)
    (new_key : KeyType) (new_value : ValueType) : option (Z * page) :=
  index ← ValueIndex p old_value;
  a ← for_down (GetSize p - 1) (index + 1)
        (λ i a, x ← slot_read a i; slot_write a (i + 1) x) (array p);
  p' ← SetKeyAt (with_array p a) (index + 1) new_key;
  p' ← SetValueAt p' (index + 1) new_value;
  let p' := SetSize p' (GetSize p' + 1) in
  Some (GetSize p', p').

(** The buffer pool argument is not used by the source. *)
Definition CopyHalfFrom (p : page) (items : list MappingType) (size : Z)
  : option page :=
  let half := size - ((size + 1) `quot` 2) in
  a ← for_up (size - half) size
        (λ i a, x ← slot_read items i; slot_write a (i - size + half) x)
        (array p);
  Some (SetSize (with_array p a) half).

Definition MoveHalfTo (p recipient : page) : option (page * page) :=
  recipient' ← CopyHalfFrom recipient (array p) (GetSize p);
  Some (SetSize p ((GetSize p + 1) `quot` 2), recipient').

Definition Remove (p : page) (index : Z) : option page :=
  a ← for_up (index + 1) (GetSize p)
        (λ i a, x ← slot_read a i; slot_write a (i - 1) x) (array p);
  Some (SetSize (with_array p a) (GetSize p - 1)).

Definition RemoveAndReturnOnlyChild (p : page) : option (ValueType * page) :=
  let p' := SetSize p 0 in
  v ← ValueAt p' 0;
  Some (v, p').

End Internal.

Arguments page : clear implicits.
End BPlusTreeInternalPage.

(** ** The tree ([b_plus_tree.cpp]) *)

(** What a call does besides returning: it can touch memory it does not own
    (a null page pointer, a slot outside the buffer), or the bounded
    unrolling of a loop or of a recursion can be too short. *)
Inductive outcome (A : Type) : Type :=
| Returns (a : A)
| Faults
| OutOfFuel.
Arguments Returns {A} a.
Arguments Faults {A}.
Arguments OutOfFuel {A}.

Definition bind {A B} (m : outcome A) (k : A → outcome B) : outcome B :=
  match m with
  | Returns a => k a
  | Faults => Faults
  | OutOfFuel => OutOfFuel
  end.

(** A page-level access that fails is a fault of the caller. *)
Definition access {A} (o : option A) : outcome A :=
  match o with Some a => Returns a | None => Faults end.

Declare Scope outcome_scope.
Delimit Scope outcome_scope with outcome.
Notation "'do' x <- m ; k" := (bind m (λ x, k))
  (at level 10, x name, m at level 100, k at level 200) : outcome_scope.
Notation "'do' ' x <- m ; k" := (bind m (λ x, k))
  (at level 10, x strict pattern, m at level 100, k at level 200)
  : outcome_scope.

Module BPlusTree.
Import BPlusTreePage.
Module Leaf := BPlusTreeLeafPage.
Module Internal := BPlusTreeInternalPage.

Section Tree.
Context {KeyType ValueType : Type}.
Variable comparator : KeyType → KeyType → Z.
Variable int_eq_key : Z → KeyType → bool.
Variables PAGE_SIZE HEADER_SIZE sizeof_KeyType sizeof_ValueType : Z.
(** What a frame handed out by [NewPage] holds before it is initialised,
    read through the leaf layout and through the internal layout. *)
Variable fresh_leaf : Leaf.page KeyType ValueType.
Variable fresh_internal : Internal.page KeyType.

Local Open Scope outcome_scope.

(** Modelled from the spec: the buffer pool ([FetchPage], [NewPage]) and
    the header page ([InsertRecord], [UpdateRecord], the lookup of a
    record), which the repository defines outside the files embedded
    here.  A frame is read through the layout it was last written with;
    pin counts and latches are left out. *)
Inductive Frame :=
| RawFrame
| LeafFrame (p : Leaf.page KeyType ValueType)
| InternalFrame (p : Internal.page KeyType)
| HeaderFrame (records : list (string * page_id_t)).

Record BufferPoolManager := Pool {
  frames : gmap Z Frame;
  next_page_id : page_id_t
}.

Definition FetchPage (bpm : BufferPoolManager) (page_id : page_id_t)
  : option Frame := frames bpm !! page_id.

Definition NewPage (bpm : BufferPoolManager)
  : page_id_t * BufferPoolManager :=
  (next_page_id bpm,
   Pool (<[next_page_id bpm := RawFrame]> (frames bpm))
        (next_page_id bpm + 1)).

Definition store (bpm : BufferPoolManager) (page_id : page_id_t)
    (f : Frame) : BufferPoolManager :=
  Pool (<[page_id := f]> (frames bpm)) (next_page_id bpm).

Definition as_header (f : Frame) : option header :=
  match f with
  | RawFrame => Some (Leaf.hdr fresh_leaf)
  | LeafFrame p => Some (Leaf.hdr p)
  | InternalFrame p => Some (Internal.hdr p)
  | HeaderFrame _ => None
  end.

Definition as_leaf (f : Frame) : option (Leaf.page KeyType ValueType) :=
  match f with
  | RawFrame => Some fresh_leaf
  | LeafFrame p => Some p
  | _ => None
  end.

Definition as_internal (f : Frame) : option (Internal.page KeyType) :=
  match f with
  | RawFrame => Some fresh_internal
  | InternalFrame p => Some p
  | _ => None
  end.

Definition as_header_page (f : Frame) : option (list (string * page_id_t)) :=
  match f with
  | RawFrame => Some []
  | HeaderFrame r => Some r
  | _ => None
  end.

Definition InsertRecord (records : list (string * page_id_t))
    (name : string) (root_id : page_id_t) : list (string * page_id_t) :=
  records ++ [(name, root_id)].

Fixpoint UpdateRecord (records : list (string * page_id_t))
    (name : string) (root_id : page_id_t) : list (string * page_id_t) :=
  match records with
  | [] => []
  | (n, r) :: rest =>
      if decide (n = name) then (n, root_id) :: rest
      else (n, r) :: UpdateRecord rest name root_id
  end.

Fixpoint GetRootId (records : list (string * page_id_t)) (name : string)
  : option page_id_t :=
  match records with
  | [] => None
  | (n, r) :: rest => if decide (n = name) then Some r else GetRootId rest name
  end.

(** The tree object: its name, its root and the pool it points to. *)
Record tree := Tree {
  index_name_ : string;
  root_page_id_ : page_id_t;
  buffer_pool_manager_ : BufferPoolManager
}.

Definition with_pool (t : tree) (bpm : BufferPoolManager) : tree :=
  Tree (index_name_ t) (root_page_id_ t) bpm.

Definition fetch (t : tree) (page_id : page_id_t) : outcome Frame :=
  access (FetchPage (buffer_pool_manager_ t) page_id).

Definition IsEmpty (t : tree) : bool :=
  bool_decide (root_page_id_ t = INVALID_PAGE_ID).

(** The [for] loop of [GetValueHelper]: the child the recursive call is
    made on. *)
Fixpoint GetValue_child (p : Internal.page KeyType) (key : KeyType)
    (n : nat) (i : Z) : option page_id_t :=
  match n with
  | O => Internal.ValueAt p (Internal.GetSize p - 1)
  | S n' =>
      k ← Internal.KeyAt p i;
      if decide (comparator key k < 0) then Internal.ValueAt p (i - 1)
      else GetValue_child p key n' (i + 1)
  end.

(** Returns the result flag and the result vector. *)
Fixpoint GetValueHelper (fuel : nat) (t : tree) (key : KeyType)
    (result : list ValueType) (pageId : page_id_t)
  : outcome (bool * list ValueType) :=
  match fuel with
  | O => OutOfFuel
  | S fuel' =>
      do currPage <- fetch t pageId;
      do h <- access (as_header currPage);
      if IsLeafPage h then
        do currLeaf <- access (as_leaf currPage);
        do found <- access (Leaf.Lookup comparator currLeaf key);
        match found with
        | Some value => Returns (true, result ++ [value])
        | None => Returns (false, result)
        end
      else
        do currInternal <- access (as_internal currPage);
        do child <- access (GetValue_child currInternal key
                      (Z.to_nat (Internal.GetSize currInternal - 1)) 1);
        GetValueHelper fuel' t key result child
  end.

Definition GetValue (fuel : nat) (t : tree) (key : KeyType)
    (result : list ValueType) : outcome (bool * list ValueType) :=
  GetValueHelper fuel t key result (root_page_id_ t).

Definition StartNewTree (t : tree) (key : KeyType) (value : ValueType)
  : outcome tree :=
  let '(id, bpm) := NewPage (buffer_pool_manager_ t) in
  let t := Tree (index_name_ t) id bpm in
  do f <- fetch t id;
  do root <- access (as_leaf f);
  let root := Leaf.Init PAGE_SIZE HEADER_SIZE sizeof_KeyType
                sizeof_ValueType root (root_page_id_ t) INVALID_PAGE_ID in
  do '(_, root) <- access (Leaf.Insert comparator int_eq_key root key value);
  Returns (with_pool t (store (buffer_pool_manager_ t) id (LeafFrame root))).

(** One turn of the [while (true)] loop of [InsertIntoLeaf] on an internal
    page.  The [continue] sits in the inner [for] loop, so that loop runs
    to its end and [currId] is then overwritten. *)
Definition InsertIntoLeaf_step (internalPage : Internal.page KeyType)
    (key : KeyType) (currId : page_id_t) : option page_id_t :=
  _ ← for_up 1 (Internal.GetSize internalPage)
        (λ i currId,
           k ← Internal.KeyAt internalPage i;
           if decide (comparator key k < 0)
           then Internal.ValueAt internalPage (i - 1)
           else Some currId)
        currId;
  Internal.ValueAt internalPage (Internal.GetSize internalPage - 1).

Fixpoint InsertIntoLeaf_descend (fuel : nat) (t : tree) (key : KeyType)
    (currId : page_id_t) : outcome page_id_t :=
  match fuel with
  | O => OutOfFuel
  | S fuel' =>
      do page <- fetch t currId;
      do h <- access (as_header page);
      if IsLeafPage h then Returns currId
      else
        do internalPage <- access (as_internal page);
        do currId <- access (InsertIntoLeaf_step internalPage key currId);
        InsertIntoLeaf_descend fuel' t key currId
  end.

(** [old_node] and [new_node] are the frames the two pointers refer to. *)
Fixpoint InsertIntoParent (fuel : nat) (t : tree)
    (old_node : page_id_t) (key : KeyType) (new_node : page_id_t)
  : outcome tree :=
  match fuel with
  | O => OutOfFuel
  | S fuel' =>
      do fo <- fetch t old_node;
      do ho <- access (as_header fo);
      do fn <- fetch t new_node;
      do hn <- access (as_header fn);
      let pid := parent_page_id_ ho in
      do f <- fetch t pid;
      do page <- access (as_internal f);
      do '(_, page) <- access (Internal.InsertNodeAfter page (page_id_ ho)
                                 key (page_id_ hn));
      let t := with_pool t (store (buffer_pool_manager_ t) pid
                              (InternalFrame page)) in
      if decide (Internal.GetSize page < Internal.GetMaxSize page)
      then Returns t
      else
        let '(newId, bpm) := NewPage (buffer_pool_manager_ t) in
        let t := with_pool t bpm in
        do f <- fetch t newId;
        do newPage <- access (as_internal f);
        do '(page, newPage) <- access (Internal.MoveHalfTo page newPage);
        let t := with_pool t (store (store (buffer_pool_manager_ t) pid
                   (InternalFrame page)) newId (InternalFrame newPage)) in
        if IsRootPage (Internal.hdr page) then
          let '(rootId, bpm) := NewPage (buffer_pool_manager_ t) in
          let t := Tree (index_name_ t) rootId bpm in
          do f <- fetch t rootId;
          do newRoot <- access (as_internal f);
          do k <- access (Internal.KeyAt newPage 0);
          do v <- access (Internal.ValueAt newPage 0);
          do newRoot <- access (Internal.PopulateNewRoot newRoot
                                  (Internal.GetPageId page) k v);
          Returns (with_pool t (store (buffer_pool_manager_ t) rootId
                                  (InternalFrame newRoot)))
        else
          do k <- access (Internal.KeyAt newPage 0);
          InsertIntoParent fuel' t pid k newId
  end.

Definition InsertToLeaf (fuel : nat) (t : tree) (leafId : page_id_t)
    (key : KeyType) (value : ValueType) : outcome tree :=
  do f <- fetch t leafId;
  do page <- access (as_leaf f);
  do '(_, page) <- access (Leaf.Insert comparator int_eq_key page key value);
  let t := with_pool t (store (buffer_pool_manager_ t) leafId
                          (LeafFrame page)) in
  if decide (Leaf.GetSize page < Leaf.GetMaxSize page) then Returns t
  else
    let '(newPageId, bpm) := NewPage (buffer_pool_manager_ t) in
    let t := with_pool t bpm in
    do f <- fetch t newPageId;
    do newPage <- access (as_leaf f);
    let newPage := Leaf.Init PAGE_SIZE HEADER_SIZE sizeof_KeyType
                     sizeof_ValueType newPage newPageId
                     (Leaf.GetParentPageId page) in
    do '(page, newPage) <- access (Leaf.MoveHalfTo page newPage);
    let t := with_pool t (store (store (buffer_pool_manager_ t) leafId
               (LeafFrame page)) newPageId (LeafFrame newPage)) in
    do k <- access (Leaf.KeyAt newPage 0);
    InsertIntoParent fuel t leafId k newPageId.

Definition InsertIntoLeaf (fuel : nat) (t : tree) (key : KeyType)
    (value : ValueType) : outcome (bool * tree) :=
  do currId <- InsertIntoLeaf_descend fuel t key (root_page_id_ t);
  do f <- fetch t currId;
  do curr <- access (as_leaf f);
  do found <- access (Leaf.Lookup comparator curr key);
  match found with
  | Some _ => Returns (false, t)
  | None =>
      do t <- InsertToLeaf fuel t currId key value;
      Returns (true, t)
  end.

(** The result of [InsertIntoLeaf] is dropped. *)
Definition Insert (fuel : nat) (t : tree) (key : KeyType)
    (value : ValueType) : outcome (bool * tree) :=
  if decide (root_page_id_ t = INVALID_PAGE_ID) then
    do t <- StartNewTree t key value;
    Returns (true, t)
  else
    do '(_, t) <- InsertIntoLeaf fuel t key value;
    Returns (true, t).

(** The body of [Remove] is empty. *)
Definition Remove (t : tree) (key : KeyType) : outcome tree := Returns t.

Definition UpdateRootPageId (t : tree) (insert_record : Z) : outcome tree :=
  do f <- fetch t HEADER_PAGE_ID;
  do header_page <- access (as_header_page f);
  let header_page :=
    if decide (insert_record ≠ 0)
    then InsertRecord header_page (index_name_ t) (root_page_id_ t)
    else UpdateRecord header_page (index_name_ t) (root_page_id_ t) in
  Returns (with_pool t (store (buffer_pool_manager_ t) HEADER_PAGE_ID
                          (HeaderFrame header_page))).

(** The root id the header page records under the index name. *)
Definition persisted_root (t : tree) : option page_id_t :=
  f ← FetchPage (buffer_pool_manager_ t) HEADER_PAGE_ID;
  r ← as_header_page f;
  GetRootId r (index_name_ t).

End Tree.

Arguments Frame : clear implicits.
Arguments BufferPoolManager : clear implicits.
Arguments tree : clear implicits.
End BPlusTree.

(** ** Transactions ([transaction.h]) *)

Module Transaction.

(** [std::shared_ptr<T>]: null, or owning an object. *)
Inductive shared_ptr (T : Type) : Type :=
| null
| owns (obj : T).
Arguments null {T}.
Arguments owns {T} obj.

(** [p.reset()] *)
Definition reset {T} (p : shared_ptr T) : shared_ptr T := null.

(** [*p] and [p->]: a null pointer has no object behind it. *)
Definition deref {T} (p : shared_ptr T) : outcome T :=
  match p with
  | null => Faults
  | owns obj => Returns obj
  end.

Section Txn.
(** [Page *] *)
Variable PagePtr : Type.

Record transaction := Txn {
  thread_id_ : Z;
  txn_id_ : Z;
  page_set_ : shared_ptr (gmap Z PagePtr)
}.

(** The member starts default-constructed (null); the body resets it. *)
Definition Transaction (thread_id txn_id : Z) : transaction :=
  let this := Txn thread_id txn_id null in
  Txn (thread_id_ this) (txn_id_ this) (reset (page_set_ this)).

Definition GetThreadId (t : transaction) : Z := thread_id_ t.
Definition GetTransactionId (t : transaction) : Z := txn_id_ t.
Definition GetPageSet (t : transaction) : shared_ptr (gmap Z PagePtr) :=
  page_set_ t.

(** [txn->GetPageSet()->insert({page_id, page})], how an index operation
    records a latched page. *)
Definition page_set_insert (t : transaction) (page_id : page_id_t)
    (page : PagePtr) : outcome (gmap Z PagePtr) :=
  bind (deref (GetPageSet t)) (λ m, Returns (<[page_id := page]> m)).

(** [txn->GetPageSet()->find(page_id)] *)
Definition page_set_find (t : transaction) (page_id : page_id_t)
  : outcome (option PagePtr) :=
  bind (deref (GetPageSet t)) (λ m, Returns (m !! page_id)).
End Txn.

Arguments transaction : clear implicits.
End Transaction.

(** ** A concrete instantiation

    Integer keys with [RID = key], as in the scenarios of the
    specification; frames handed out by the pool are zero-filled and hold
    eight slots. *)

Module Scenario.
Import BPlusTreePage.
Module Leaf := BPlusTreeLeafPage.
Module Internal := BPlusTreeInternalPage.

(** A comparator returning the sign of [a - b]. *)
Definition IntegerComparator (a b : Z) : Z :=
  if decide (a < b) then -1 else if decide (b < a) then 1 else 0.

Definition capacity : nat := 8.

Definition zero_header : header := Header INVALID_INDEX_PAGE 0 0 0 0 0.
Definition zero_leaf : Leaf.page Z Z :=
  Leaf.Page zero_header 0 (replicate capacity (0, 0)).
Definition zero_internal : Internal.page Z :=
  Internal.Page zero_header (replicate capacity (0, 0)).

(** A leaf holding [entries] in its first slots. *)
Definition leaf_of (page_id parent_id next_id max_size : Z)
    (entries : list (Z * Z)) : Leaf.page Z Z :=
  Leaf.Page
    (Header LEAF_PAGE 0 (Z.of_nat (length entries)) max_size parent_id page_id)
    next_id
    (entries ++ replicate (capacity - length entries)%nat (0, 0)).

(** An internal page holding [entries] in its first slots. *)
Definition internal_of (page_id parent_id max_size : Z)
    (entries : list (Z * Z)) : Internal.page Z :=
  Internal.Page
    (Header INTERNAL_PAGE 0 (Z.of_nat (length entries)) max_size
       parent_id page_id)
    (entries ++ replicate (capacity - length entries)%nat (0, 0)).

Definition tree_of (root : page_id_t) (next : page_id_t)
    (fs : list (Z * BPlusTree.Frame Z Z)) : BPlusTree.tree Z Z :=
  BPlusTree.Tree "idx" root (BPlusTree.Pool (list_to_map fs) next).

(** An empty tree: only the header page, without a record. *)
Definition empty_tree : BPlusTree.tree Z Z :=
  tree_of INVALID_PAGE_ID 1 [(0, BPlusTree.HeaderFrame [])].

(** A single leaf root holding key 7. *)
Definition leaf7 : Leaf.page Z Z := leaf_of 1 INVALID_PAGE_ID INVALID_PAGE_ID 4 [(7, 70)].
Definition tree7 : BPlusTree.tree Z Z :=
  tree_of 1 2 [(0, BPlusTree.HeaderFrame [("idx"%string, 1)]);
               (1, BPlusTree.LeafFrame leaf7)].

(** Scenario 2 of the specification: root [_,L1][3,L2], L1 = {1,2},
    L2 = {3,4,5}, here with room left in every page. *)
Definition two_level_tree : BPlusTree.tree Z Z :=
  tree_of 3 4
    [(0, BPlusTree.HeaderFrame [("idx"%string, 3)]);
     (1, BPlusTree.LeafFrame (leaf_of 1 3 2 8 [(1, 1); (2, 2)]));
     (2, BPlusTree.LeafFrame
           (leaf_of 2 3 INVALID_PAGE_ID 8 [(3, 3); (4, 4); (5, 5)]));
     (3, BPlusTree.InternalFrame
           (internal_of 3 INVALID_PAGE_ID 8 [(0, 1); (3, 2)]))].

(** A leaf of odd size, keys 1, 2, 3. *)
Definition leaf123 : Leaf.page Z Z :=
  leaf_of 1 INVALID_PAGE_ID INVALID_PAGE_ID 4 [(1, 10); (2, 20); (3, 30)].

(** A leaf with keys 1, 2. *)
Definition leaf12 : Leaf.page Z Z :=
  leaf_of 1 INVALID_PAGE_ID INVALID_PAGE_ID 4 [(1, 10); (2, 20)].

(** An internal page with separators 3 and 6 over children 1, 2, 5. *)
Definition node36 : Internal.page Z :=
  internal_of 4 INVALID_PAGE_ID 4 [(0, 1); (3, 2); (6, 5)].

(** The operations at this instantiation; [eqk] is the [int == key]
    comparison of the leaf [Insert]. *)
Definition Insert (eqk : Z → Z → bool) :=
  BPlusTree.Insert IntegerComparator eqk 4096 28 8 8 zero_leaf zero_internal.
Definition GetValue :=
  BPlusTree.GetValue IntegerComparator zero_leaf zero_internal.
Definition persisted_root := BPlusTree.persisted_root (KeyType := Z) (ValueType := Z).
End Scenario.

(** ** More concrete inputs *)

Module ScenarioMore.
Import BPlusTreePage Scenario.

(** Two readings of the [int == key] test of the leaf [Insert]: one that
    never holds, and the comparison of the [int] with the key's integer. *)
Definition never_eq (c k : Z) : bool := false.
Definition int_eq (c k : Z) : bool := bool_decide (c = k).

(** A single-leaf tree with keys 1, 2 and room for more. *)
Definition tree12 : BPlusTree.tree Z Z :=
  tree_of 1 2 [(0, BPlusTree.HeaderFrame [("idx"%string, 1)]);
               (1, BPlusTree.LeafFrame leaf12)].

(** A root leaf with keys 1, 2 that one more key fills (maximal size 3). *)
Definition leaf12_max3 : Leaf.page Z Z :=
  leaf_of 1 INVALID_PAGE_ID INVALID_PAGE_ID 3 [(1, 10); (2, 20)].
Definition tree12_max3 : BPlusTree.tree Z Z :=
  tree_of 1 2 [(0, BPlusTree.HeaderFrame [("idx"%string, 1)]);
               (1, BPlusTree.LeafFrame leaf12_max3)].

(** The root of the two-level tree. *)
Definition root13 : Internal.page Z :=
  internal_of 3 INVALID_PAGE_ID 8 [(0, 1); (3, 2)].
Definition leaf345 : Leaf.page Z Z :=
  leaf_of 2 3 INVALID_PAGE_ID 8 [(3, 3); (4, 4); (5, 5)].

End ScenarioMore.

(** * Properties *)

(** ** Slot arrays *)

Section SlotFacts.
Context {T : Type}.
Implicit Types (a : list T) (i j : Z) (x : T).

Lemma slot_read_in_range a i :
  0 ≤ i < Z.of_nat (length a) → is_Some (slot_read a i).
Proof.
  intros Hi. unfold slot_read. rewrite decide_True by lia.
  apply lookup_lt_is_Some. lia.
Qed.

Lemma slot_read_Some_range a i x :
  slot_read a i = Some x → 0 ≤ i < Z.of_nat (length a).
Proof.
  unfold slot_read. case_decide; [|done].
  intros Hx%lookup_lt_Some. lia.
Qed.

Lemma slot_write_in_range a i x :
  0 ≤ i < Z.of_nat (length a) → is_Some (slot_write a i x).
Proof. intros Hi. unfold slot_write. rewrite decide_True by lia. eauto. Qed.

Lemma slot_write_length a i x a' :
  slot_write a i x = Some a' → length a' = length a.
Proof.
  unfold slot_write. case_decide; [|done].
  intros [= <-]. apply length_insert.
Qed.

Lemma slot_read_write_eq a i x a' :
  slot_write a i x = Some a' → slot_read a' i = Some x.
Proof.
  unfold slot_write, slot_read. case_decide; [|done].
  intros [= <-]. rewrite decide_True by lia.
  apply list_lookup_insert_eq. lia.
Qed.

Lemma slot_read_write_ne a i j x a' :
  slot_write a i x = Some a' → j ≠ i → slot_read a' j = slot_read a j.
Proof.
  unfold slot_write, slot_read. case_decide; [|done].
  intros [= <-] Hne. case_decide; [|done].
  apply list_lookup_insert_ne. lia.
Qed.

(** The copying loop shared by the two [CopyHalfFrom]:
    [for (i = ...; ...; i++) array[i - size + half] = items[i]]. *)
Lemma copy_loop (items : list T) (size half : Z) (n : nat) :
  ∀ i a,
    0 ≤ i - size + half →
    i + Z.of_nat n ≤ Z.of_nat (length items) →
    i - size + half + Z.of_nat n ≤ Z.of_nat (length a) →
    0 ≤ i →
    ∃ a',
      iterate n i 1
        (λ i a, x ← slot_read items i; slot_write a (i - size + half) x) a
        = Some a'
      ∧ length a' = length a
      ∧ (∀ j, i ≤ j < i + Z.of_nat n →
           slot_read a' (j - size + half) = slot_read items j)
      ∧ (∀ j, ¬ (i - size + half ≤ j < i - size + half + Z.of_nat n) →
           slot_read a' j = slot_read a j).
Proof.
  induction n as [|n IH]; intros i a Hlo Hitems Ha Hi.
  - exists a. simpl. repeat split; try done. intros; lia.
  - destruct (slot_read_in_range items i) as [x Hx]; [lia|].
    destruct (slot_write_in_range a (i - size + half) x) as [a1 Ha1]; [lia|].
    pose proof (slot_write_length _ _ _ _ Ha1) as Hlen1.
    destruct (IH (i + 1) a1) as (a' & Hrun & Hlen & Hcopied & Hkept);
      [lia..|].
    exists a'. simpl. rewrite Hx. simpl. rewrite Ha1.
    split; [exact Hrun|]. split; [congruence|]. split.
    + intros j Hj. destruct (decide (j = i)) as [->|Hne].
      * rewrite Hkept by lia. rewrite Hx. eapply slot_read_write_eq, Ha1.
      * apply Hcopied. lia.
    + intros j Hj. rewrite Hkept by lia.
      eapply slot_read_write_ne; [exact Ha1|lia].
Qed.
End SlotFacts.

(** ** Leaf pages *)

Section LeafFacts.
Import BPlusTreeLeafPage.
Context {KeyType ValueType : Type}.
Variable comparator : KeyType → KeyType → Z.
Implicit Types (L R : page KeyType ValueType) (key : KeyType).

(** C4, as amended.  For a leaf [L] of size [s] whose slots lie in its
    buffer, [L.MoveHalfTo(R)] leaves the lower ⌊s/2⌋ slots in [L] and puts
    the upper ⌈s/2⌉ slots into [R] from slot 0 on; when [s] is odd the
    recipient holds one slot more than the donor. *)
Theorem leaf_MoveHalfTo_halves L R (s : Z) :
  GetSize L = s →
  0 ≤ s ≤ Z.of_nat (length (array L)) →
  (s + 1) `div` 2 ≤ Z.of_nat (length (array R)) →
  ∃ L' R',
    MoveHalfTo L R = Some (L', R')
    ∧ GetSize L' = s `div` 2
    ∧ GetSize R' = (s + 1) `div` 2
    ∧ (∀ i, 0 ≤ i < s `div` 2 → GetItem L' i = GetItem L i)
    ∧ (∀ j, 0 ≤ j < (s + 1) `div` 2 →
         GetItem R' j = GetItem L (s `div` 2 + j))
    ∧ (Z.odd s = true → GetSize R' = GetSize L' + 1).
Proof.
  intros Hs Hrange Hroom.
  assert (Hq : s `quot` 2 = s `div` 2) by (apply Z.quot_div_nonneg; lia).
  assert (Hceil : s - s `div` 2 = (s + 1) `div` 2)
    by (Z.div_mod_to_equations; lia).
  assert (0 ≤ s `div` 2 ≤ s) by (Z.div_mod_to_equations; lia).
  unfold MoveHalfTo, CopyHalfFrom, for_up. rewrite Hs, Hq.
  destruct (copy_loop (array L) s (s - s `div` 2)
              (Z.to_nat (s - (s - (s - s `div` 2))))
              (s - (s - s `div` 2)) (array R))
    as (a' & Hrun & Hlen & Hcopied & _); [lia..|].
  rewrite Hrun. simpl.
  eexists _, _. split; [reflexivity|].
  split; [reflexivity|]. split; [exact Hceil|]. split; [done|]. split.
  - intros j Hj. unfold GetItem. simpl.
    replace j with ((s `div` 2 + j) - s + (s - s `div` 2)) at 1 by lia.
    apply Hcopied. lia.
  - intros Hodd. unfold GetSize. simpl.
    rewrite Z.odd_spec in Hodd. destruct Hodd as [m ->].
    Z.div_mod_to_equations; lia.
Qed.
End LeafFacts.

Section LeafSearchFacts.
Import BPlusTreeLeafPage.
Context {KeyType ValueType : Type}.
Variable comparator : KeyType → KeyType → Z.
Implicit Types (L : page KeyType ValueType) (key : KeyType).

Lemma KeyIndex_from_first_ge L key (n : nat) :
  ∀ i,
    0 ≤ i →
    i + Z.of_nat n ≤ Z.of_nat (length (array L)) →
    ∃ r,
      KeyIndex_from comparator L key n i = Some r
      ∧ ((i ≤ r < i + Z.of_nat n
          ∧ (∃ k, KeyAt L r = Some k ∧ comparator k key >= 0)
          ∧ (∀ j k, i ≤ j < r → KeyAt L j = Some k → comparator k key < 0))
         ∨ (r = -1
            ∧ ∀ j k, i ≤ j < i + Z.of_nat n →
                KeyAt L j = Some k → comparator k key < 0)).
Proof.
  induction n as [|n IH]; intros i Hi Hfit; simpl.
  - exists (-1). split; [done|]. right. split; [done|]. intros; lia.
  - destruct (slot_read_in_range (array L) i) as [item Hitem]; [lia|].
    rewrite Hitem. simpl. case_decide as Hcmp.
    + exists i. split; [done|]. left. split; [lia|]. split.
      * exists item.1. unfold KeyAt. by rewrite Hitem.
      * intros; lia.
    + destruct (IH (i + 1)) as (r & Hr & Hcases); [lia..|].
      assert (Hhere : ∀ j k, j = i → KeyAt L j = Some k → comparator k key < 0).
      { intros j k -> Hk. unfold KeyAt in Hk. rewrite Hitem in Hk.
        injection Hk as <-. lia. }
      exists r. split; [done|].
      destruct Hcases as [(Hrange & Hge & Hbelow)|[-> Hnone]].
      * left. split; [lia|]. split; [done|]. intros j k Hj Hk.
        destruct (decide (j = i)); [by eapply Hhere|]. apply (Hbelow j); [lia|done].
      * right. split; [done|]. intros j k Hj Hk.
        destruct (decide (j = i)); [by eapply Hhere|]. apply (Hnone j); [lia|done].
Qed.

(** C9, as amended.  For every leaf page whose slots lie in its buffer
    (its keys ascending or not) and every search key, [KeyIndex] returns
    the smallest slot index [i] with [key_i >= key], and returns [-1] when
    no slot below [size] satisfies this. *)
Theorem leaf_KeyIndex_first_ge L key :
  GetSize L ≤ Z.of_nat (length (array L)) →
  ∃ r,
    KeyIndex comparator L key = Some r
    ∧ ((0 ≤ r < GetSize L
        ∧ (∃ k, KeyAt L r = Some k ∧ comparator k key >= 0)
        ∧ (∀ j k, 0 ≤ j < r → KeyAt L j = Some k → comparator k key < 0))
       ∨ (r = -1
          ∧ ∀ j k, 0 ≤ j < GetSize L →
              KeyAt L j = Some k → comparator k key < 0)).
Proof.
  intros Hfit. unfold KeyIndex.
  destruct (KeyIndex_from_first_ge L key (Z.to_nat (GetSize L)) 0)
    as (r & Hr & Hcases); [lia..|].
  exists r. split; [done|].
  destruct Hcases as [(Hrange & Hge & Hbelow)|[-> Hnone]].
  - left. split; [lia|]. split; [done|]. intros j k Hj. apply Hbelow. lia.
  - right. split; [done|]. intros j k Hj. apply Hnone. lia.
Qed.

Lemma SetNextPageId_ignores_argument L (p : page_id_t) :
  GetNextPageId (SetNextPageId L p) = GetNextPageId L.
Proof. reflexivity. Qed.

Lemma Init_keeps_next_page_id L (a b c d : Z) (page_id parent_id : page_id_t) :
  GetNextPageId (Init a b c d L page_id parent_id) = GetNextPageId L.
Proof. reflexivity. Qed.
End LeafSearchFacts.

(** ** Internal pages *)

Section InternalFacts.
Import BPlusTreeInternalPage.
Context {KeyType : Type}.
Variable comparator : KeyType → KeyType → Z.
Implicit Types (p : page KeyType) (key : KeyType).

Lemma KeyAt_in_range p i :
  0 ≤ i < Z.of_nat (length (array p)) → is_Some (KeyAt p i).
Proof.
  intros Hi. unfold KeyAt.
  destruct (slot_read_in_range (array p) i Hi) as [s ->]. by eexists.
Qed.

Lemma ValueAt_in_range p i :
  0 ≤ i < Z.of_nat (length (array p)) → is_Some (ValueAt p i).
Proof.
  intros Hi. unfold ValueAt.
  destruct (slot_read_in_range (array p) i Hi) as [s ->]. by eexists.
Qed.

Lemma Lookup_scan_stops p key (n : nat) :
  ∀ i,
    0 ≤ i →
    i + Z.of_nat n ≤ Z.of_nat (length (array p)) →
    ∃ r,
      Lookup_scan comparator p key n i = Some r
      ∧ i ≤ r ≤ i + Z.of_nat n
      ∧ (∀ j k, i ≤ j < r → KeyAt p j = Some k → comparator key k > 0)
      ∧ (r < i + Z.of_nat n →
         ∃ k, KeyAt p r = Some k ∧ ¬ comparator key k > 0).
Proof.
  induction n as [|n IH]; intros i Hi Hfit; simpl.
  - exists i. repeat split; try done; intros; lia.
  - destruct (KeyAt_in_range p i) as [k Hk]; [lia|].
    rewrite Hk. simpl. case_decide as Hcmp.
    + destruct (IH (i + 1)) as (r & Hr & Hrange & Hbelow & Hat); [lia..|].
      exists r. split; [done|]. split; [lia|]. split.
      * intros j kj Hj Hkj. destruct (decide (j = i)) as [->|].
        -- congruence.
        -- apply (Hbelow j); [lia|done].
      * intros Hlt. apply Hat. lia.
    + exists i. split; [done|]. split; [lia|]. split; [intros; lia|].
      intros _. by exists k.
Qed.

Section Routing.
(** The comparator is the sign of a total order on keys. *)
Hypothesis comparator_flip :
  ∀ a b, comparator a b > 0 ↔ comparator b a < 0.
Hypothesis comparator_eq_lt :
  ∀ a b c, comparator a b = 0 → comparator b c < 0 → comparator a c < 0.
Hypothesis comparator_lt_eq :
  ∀ a b c, comparator a b < 0 → comparator b c = 0 → comparator a c < 0.

(** C8.  For an internal page with at least its slot 0, whose slots lie
    in its buffer and whose keys at slots 1..size-1 are strictly
    ascending, [Lookup] returns the child at slot [i-1] for the smallest
    [i] in [1,size) with [key < key_i], and the child at slot [size-1]
    when there is no such [i]; a key equal to the separator of slot [i]
    is sent to the child at slot [i]. *)
Theorem internal_Lookup_routing p key :
  1 ≤ GetSize p ≤ Z.of_nat (length (array p)) →
  (∀ i j ki kj, 1 ≤ i < j → j < GetSize p →
     KeyAt p i = Some ki → KeyAt p j = Some kj → comparator ki kj < 0) →
  ∃ child,
    Lookup comparator p key = Some child
    ∧ ((∃ i k, 1 ≤ i < GetSize p
          ∧ KeyAt p i = Some k ∧ comparator key k < 0
          ∧ (∀ j kj, 1 ≤ j < i → KeyAt p j = Some kj →
               ¬ comparator key kj < 0)
          ∧ ValueAt p (i - 1) = Some child)
       ∨ ((∀ j kj, 1 ≤ j < GetSize p → KeyAt p j = Some kj →
             ¬ comparator key kj < 0)
          ∧ ValueAt p (GetSize p - 1) = Some child))
    ∧ (∀ i k, 1 ≤ i < GetSize p → KeyAt p i = Some k →
         comparator key k = 0 → ValueAt p i = Some child).
Proof.
  intros Hsize Hsorted. unfold Lookup.
  destruct (Lookup_scan_stops p key (Z.to_nat (GetSize p - 1)) 1)
    as (r & Hr & Hrange & Hbelow & Hat); [lia..|].
  rewrite Hr. simpl.
  assert (Hgt_not_lt : ∀ j kj, 1 ≤ j < r → KeyAt p j = Some kj →
            ¬ comparator key kj < 0).
  { intros j kj Hj Hkj. specialize (Hbelow j kj Hj Hkj). lia. }
  assert (Heq_at : ∀ i k, 1 ≤ i < GetSize p → KeyAt p i = Some k →
            comparator key k = 0 → i = r).
  { intros i k Hi Hk Hzero.
    destruct (Z.lt_trichotomy i r) as [Hlt|[Heq|Hgt]]; [|done|].
    - specialize (Hbelow i k ltac:(lia) Hk). lia.
    - destruct Hat as (kr & Hkr & Hle); [lia|].
      pose proof (Hsorted r i kr k ltac:(lia) ltac:(lia) Hkr Hk) as Hlt.
      assert (comparator k key = 0) as Hzero'.
      { pose proof (comparator_flip key k). pose proof (comparator_flip k key).
        lia. }
      pose proof (comparator_lt_eq _ _ _ Hlt Hzero').
      pose proof (comparator_flip key kr). lia. }
  case_decide as Hend.
  - destruct (ValueAt_in_range p (GetSize p - 1)) as [child Hchild]; [lia|].
    exists child. split; [done|]. split.
    + right. split; [|done]. intros j kj Hj. apply Hgt_not_lt. lia.
    + intros i k Hi Hk Hzero. specialize (Heq_at i k Hi Hk Hzero). lia.
  - destruct Hat as (kr & Hkr & Hle); [lia|].
    rewrite Hkr. simpl. case_decide as Hlt.
    + destruct (ValueAt_in_range p (r - 1)) as [child Hchild]; [lia|].
      exists child. split; [done|]. split.
      * left. exists r, kr. repeat split; try done; lia.
      * intros i k Hi Hk Hzero. specialize (Heq_at i k Hi Hk Hzero).
        subst i. rewrite Hkr in Hk. injection Hk as <-. lia.
    + destruct (ValueAt_in_range p r) as [child Hchild]; [lia|].
      exists child. split; [done|]. split.
      * assert (Hzero : comparator key kr = 0) by lia.
        destruct (decide (r + 1 < GetSize p)) as [Hnext|Hlast].
        -- destruct (KeyAt_in_range p (r + 1)) as [kn Hkn]; [lia|].
           left. exists (r + 1), kn. split; [lia|]. split; [done|]. split.
           ++ eapply comparator_eq_lt; [exact Hzero|].
              apply (Hsorted r (r + 1)); [lia|lia|done|done].
           ++ split.
              ** intros j kj Hj Hkj. destruct (decide (j = r)) as [->|].
                 --- rewrite Hkr in Hkj. injection Hkj as <-. lia.
                 --- apply (Hgt_not_lt j); [lia|done].
              ** by replace (r + 1 - 1) with r by lia.
        -- right. split.
           ++ intros j kj Hj Hkj. destruct (decide (j = r)) as [->|].
              ** rewrite Hkr in Hkj. injection Hkj as <-. lia.
              ** apply (Hgt_not_lt j); [lia|done].
           ++ by replace (GetSize p - 1) with r by lia.
      * intros i k Hi Hk Hzero'. specialize (Heq_at i k Hi Hk Hzero').
        by subst i.
Qed.
End Routing.

Lemma SetKeyAt_hdr p i key p' : SetKeyAt p i key = Some p' → hdr p' = hdr p.
Proof.
  unfold SetKeyAt. destruct (slot_read _ _); [|done]. simpl.
  destruct (slot_write _ _ _); [|done]. by intros [= <-].
Qed.

Lemma SetValueAt_hdr p i (v : ValueType) p' :
  SetValueAt p i v = Some p' → hdr p' = hdr p.
Proof.
  unfold SetValueAt. destruct (slot_read _ _); [|done]. simpl.
  destruct (slot_write _ _ _); [|done]. by intros [= <-].
Qed.

(** [PopulateNewRoot] leaves the header, and with it the size, as it was. *)
Lemma PopulateNewRoot_keeps_size p (old_value new_value : ValueType) key p' :
  PopulateNewRoot p old_value key new_value = Some p' →
  GetSize p' = GetSize p.
Proof.
  unfold PopulateNewRoot. intros H.
  destruct (SetValueAt p 0 old_value) as [p1|] eqn:H1; [|done]. simpl in H.
  destruct (SetKeyAt p1 1 key) as [p2|] eqn:H2; [|done]. simpl in H.
  unfold GetSize.
  by rewrite (SetValueAt_hdr _ _ _ _ H), (SetKeyAt_hdr _ _ _ _ H2),
    (SetValueAt_hdr _ _ _ _ H1).
Qed.
End InternalFacts.

(** ** The comparator of the concrete instantiation *)

Section IntegerComparatorFacts.
Import Scenario.

Lemma IntegerComparator_flip a b :
  IntegerComparator a b > 0 ↔ IntegerComparator b a < 0.
Proof. unfold IntegerComparator. repeat case_decide; lia. Qed.

Lemma IntegerComparator_eq_lt a b c :
  IntegerComparator a b = 0 → IntegerComparator b c < 0 →
  IntegerComparator a c < 0.
Proof. unfold IntegerComparator. repeat case_decide; lia. Qed.

Lemma IntegerComparator_lt_eq a b c :
  IntegerComparator a b < 0 → IntegerComparator b c = 0 →
  IntegerComparator a c < 0.
Proof. unfold IntegerComparator. repeat case_decide; lia. Qed.
End IntegerComparatorFacts.

(** ** Page operations at concrete pages *)

Section PageExamples.
Import Scenario.

(** C4 at a leaf of size 3 and a zero-filled recipient. *)
Lemma leaf_MoveHalfTo_halves_witness :
  ∃ L' R',
    Leaf.MoveHalfTo leaf123 zero_leaf = Some (L', R')
    ∧ Leaf.GetSize L' = 3 `div` 2
    ∧ Leaf.GetSize R' = (3 + 1) `div` 2
    ∧ (∀ i, 0 ≤ i < 3 `div` 2 → Leaf.GetItem L' i = Leaf.GetItem leaf123 i)
    ∧ (∀ j, 0 ≤ j < (3 + 1) `div` 2 →
         Leaf.GetItem R' j = Leaf.GetItem leaf123 (3 `div` 2 + j))
    ∧ (Z.odd 3 = true → Leaf.GetSize R' = Leaf.GetSize L' + 1).
Proof.
  apply (leaf_MoveHalfTo_halves leaf123 zero_leaf 3).
  - reflexivity.
  - simpl. lia.
  - vm_compute. discriminate.
Defined.

(** The claim of C4 as written fails at size 3: the donor would keep
    ⌈3/2⌉ = 2 slots and the recipient get 1; the donor keeps 1 and the
    recipient gets 2. *)
Lemma leaf_MoveHalfTo_odd_counterexample :
  Leaf.GetSize leaf123 = 3
  ∧ ¬ (∃ L' R',
         Leaf.MoveHalfTo leaf123 zero_leaf = Some (L', R')
         ∧ Leaf.GetSize L' = (3 + 1) `div` 2
         ∧ Leaf.GetSize R' = 3 - (3 + 1) `div` 2).
Proof.
  split; [reflexivity|].
  intros (L' & R' & Hmove & HL & HR).
  vm_compute in Hmove. injection Hmove as <- <-.
  vm_compute in HL. discriminate.
Qed.

(** C9 at the leaf with keys 1, 2 and the search key 2. *)
Lemma leaf_KeyIndex_first_ge_witness :
  ∃ r,
    Leaf.KeyIndex IntegerComparator leaf12 2 = Some r
    ∧ ((0 ≤ r < Leaf.GetSize leaf12
        ∧ (∃ k, Leaf.KeyAt leaf12 r = Some k ∧ IntegerComparator k 2 >= 0)
        ∧ (∀ j k, 0 ≤ j < r → Leaf.KeyAt leaf12 j = Some k →
             IntegerComparator k 2 < 0))
       ∨ (r = -1
          ∧ ∀ j k, 0 ≤ j < Leaf.GetSize leaf12 →
              Leaf.KeyAt leaf12 j = Some k → IntegerComparator k 2 < 0)).
Proof.
  apply (leaf_KeyIndex_first_ge IntegerComparator leaf12 2).
  vm_compute. discriminate.
Defined.

(** The claim of C9 as written fails when every key is below the search
    key: no slot of the leaf with keys 1, 2 holds a key [>= 3], and
    [KeyIndex] does not return the size. *)
Lemma leaf_KeyIndex_absent_counterexample :
  (∀ j k, 0 ≤ j < Leaf.GetSize leaf12 → Leaf.KeyAt leaf12 j = Some k →
     IntegerComparator k 3 < 0)
  ∧ Leaf.KeyIndex IntegerComparator leaf12 3 = Some (-1)
  ∧ Leaf.KeyIndex IntegerComparator leaf12 3 ≠ Some (Leaf.GetSize leaf12).
Proof.
  split; [|split; [reflexivity|vm_compute; discriminate]].
  intros j k Hj Hk. change (Leaf.GetSize leaf12) with 2 in Hj.
  assert (j = 0 ∨ j = 1) as [-> | ->] by lia;
    vm_compute in Hk; injection Hk as <-; reflexivity.
Qed.

(** C8 at the page with separators 3 and 6 and the search key 3. *)
Lemma internal_Lookup_routing_witness :
  ∃ child,
    Internal.Lookup IntegerComparator node36 3 = Some child
    ∧ ((∃ i k, 1 ≤ i < Internal.GetSize node36
          ∧ Internal.KeyAt node36 i = Some k ∧ IntegerComparator 3 k < 0
          ∧ (∀ j kj, 1 ≤ j < i → Internal.KeyAt node36 j = Some kj →
               ¬ IntegerComparator 3 kj < 0)
          ∧ Internal.ValueAt node36 (i - 1) = Some child)
       ∨ ((∀ j kj, 1 ≤ j < Internal.GetSize node36 →
             Internal.KeyAt node36 j = Some kj → ¬ IntegerComparator 3 kj < 0)
          ∧ Internal.ValueAt node36 (Internal.GetSize node36 - 1) = Some child))
    ∧ (∀ i k, 1 ≤ i < Internal.GetSize node36 →
         Internal.KeyAt node36 i = Some k →
         IntegerComparator 3 k = 0 → Internal.ValueAt node36 i = Some child).
Proof.
  apply (internal_Lookup_routing IntegerComparator
           IntegerComparator_flip IntegerComparator_eq_lt
           IntegerComparator_lt_eq node36 3).
  - vm_compute. split; discriminate.
  - intros i j ki kj Hij Hj Hki Hkj.
    change (Internal.GetSize node36) with 3 in Hj.
    assert (i = 1) as -> by lia. assert (j = 2) as -> by lia.
    vm_compute in Hki, Hkj. injection Hki as <-. injection Hkj as <-.
    reflexivity.
Defined.
End PageExamples.

(** ** The tree *)

Section TreeFacts.
Import BPlusTree.
Context {KeyType ValueType : Type}.
Variable comparator : KeyType → KeyType → Z.
Variable int_eq_key : Z → KeyType → bool.
Variables PAGE_SIZE HEADER_SIZE sizeof_KeyType sizeof_ValueType : Z.
Variable fresh_leaf : Leaf.page KeyType ValueType.
Variable fresh_internal : Internal.page KeyType.
Implicit Types (t : tree KeyType ValueType) (key : KeyType).

(** Whatever [InsertIntoLeaf] reports, [Insert] reports [true]. *)
Lemma Insert_returns_true fuel t key (value : ValueType) b t' :
  Insert comparator int_eq_key PAGE_SIZE HEADER_SIZE sizeof_KeyType
    sizeof_ValueType fresh_leaf fresh_internal fuel t key value
    = Returns (b, t') →
  b = true.
Proof.
  unfold Insert. case_decide.
  - destruct (StartNewTree _ _ _ _ _ _ _ _ _ _); simpl; congruence.
  - destruct (InsertIntoLeaf _ _ _ _ _ _ _ _ _ _ _ _) as [[b0 t0]| |];
      simpl; congruence.
Qed.

(** The descent of [InsertIntoLeaf] moves to the last child of an internal
    page, whatever the key. *)
Lemma InsertIntoLeaf_step_rightmost (p : Internal.page KeyType) key
    (currId child : page_id_t) :
  InsertIntoLeaf_step comparator p key currId = Some child →
  Internal.ValueAt p (Internal.GetSize p - 1) = Some child.
Proof.
  unfold InsertIntoLeaf_step. destruct (for_up _ _ _ _); simpl; done.
Qed.

(** [Remove] returns with the tree as it was. *)
Lemma Remove_changes_nothing t key : Remove t key = Returns t.
Proof. reflexivity. Qed.
End TreeFacts.

Section TreeExamples.
Import Scenario.

(** C1: on the single-leaf tree holding key 7, [Insert(7, 99)] returns
    [true] where the claim has [false]; the tree is left as it was and
    [GetValue(7)] still yields the first value. *)
Theorem Insert_existing_key_returns_true (eqk : Z → Z → bool) :
  Insert eqk 2 tree7 7 99 = Returns (true, tree7)
  ∧ GetValue 2 tree7 7 [] = Returns (true, [70]).
Proof. split; vm_compute; reflexivity. Qed.

(** C2: on the single-leaf tree holding key 7, [Remove(7)] followed by
    [GetValue(7)] still returns [true] and appends the value. *)
Theorem Remove_then_GetValue_still_finds :
  bind (BPlusTree.Remove tree7 7) (λ t, GetValue 2 t 7 [])
  = Returns (true, [70]).
Proof. vm_compute. reflexivity. Qed.

(** C3: on the two-level tree of scenario 2, [Insert(0, 100)] returns and
    [GetValue(0)] then returns [false] with nothing appended: the insert
    went to the last leaf, the lookup goes to the first. *)
Theorem Insert_then_GetValue_misses (eqk : Z → Z → bool) :
  ∃ t',
    Insert eqk 3 two_level_tree 0 100 = Returns (true, t')
    ∧ GetValue 3 two_level_tree 0 [] = Returns (false, [])
    ∧ GetValue 3 t' 0 [] = Returns (false, []).
Proof.
  destruct (eqk 1 0) eqn:Heq.
  - eexists. split; [|split].
    + vm_compute. rewrite Heq. reflexivity.
    + vm_compute. reflexivity.
    + vm_compute. reflexivity.
  - eexists. split; [|split].
    + vm_compute. rewrite Heq. reflexivity.
    + vm_compute. reflexivity.
    + vm_compute. reflexivity.
Qed.

(** C5: [Insert(1, 1)] into the empty tree makes page 1 the root, and the
    header page still has no record for the index. *)
Theorem Insert_into_empty_tree_header_stale (eqk : Z → Z → bool) :
  ∃ t',
    Insert eqk 1 empty_tree 1 1 = Returns (true, t')
    ∧ BPlusTree.root_page_id_ t' = 1
    ∧ persisted_root empty_tree = None
    ∧ persisted_root t' = None.
Proof.
  eexists. split; [vm_compute; reflexivity|].
  repeat split; vm_compute; reflexivity.
Qed.
End TreeExamples.

Section PageDefectExamples.
Import Scenario.

(** C6: [Init] on a zero-filled frame leaves [next_page_id] at 0, not at
    [INVALID_PAGE_ID]; [SetNextPageId(2)] on a leaf whose field is -1
    leaves it at -1. *)
Theorem leaf_SetNextPageId_keeps_old_value :
  Leaf.GetNextPageId (Leaf.Init 4096 28 8 8 zero_leaf 1 INVALID_PAGE_ID) = 0
  ∧ Leaf.GetNextPageId (Leaf.SetNextPageId leaf7 2) = -1.
Proof. split; reflexivity. Qed.

(** C7: [PopulateNewRoot(1, 3, 2)] on a page just initialised writes the
    two slots and leaves the size at 0. *)
Theorem internal_PopulateNewRoot_size_unset :
  ∃ p',
    Internal.PopulateNewRoot
      (Internal.Init 4096 24 8 4 zero_internal 3 INVALID_PAGE_ID) 1 3 2
      = Some p'
    ∧ Internal.ValueAt p' 0 = Some 1
    ∧ Internal.KeyAt p' 1 = Some 3
    ∧ Internal.ValueAt p' 1 = Some 2
    ∧ Internal.GetSize p' = 0.
Proof. eexists. repeat split; vm_compute; reflexivity. Qed.
End PageDefectExamples.

(** ** Transactions *)

Section TransactionFacts.
Import Transaction.
Variable PagePtr : Type.

(** C10.  A freshly constructed transaction has a null page set:
    [GetPageSet()] returns the null pointer, and dereferencing it, inserting
    a latched page into it or searching it faults. *)
Theorem Transaction_page_set_is_null (thread_id txn_id : Z) :
  GetPageSet PagePtr (Transaction PagePtr thread_id txn_id) = null
  ∧ deref (GetPageSet PagePtr (Transaction PagePtr thread_id txn_id)) = Faults
  ∧ (∀ page_id page,
       page_set_insert PagePtr (Transaction PagePtr thread_id txn_id)
         page_id page = Faults)
  ∧ (∀ page_id,
       page_set_find PagePtr (Transaction PagePtr thread_id txn_id) page_id
       = Faults).
Proof. repeat split. Qed.
End TransactionFacts.

(** * Further properties of the page and tree code *)

(** ** Loops over slot arrays *)

Section LoopFacts.
Context {T : Type}.
Implicit Types (a : list T) (i j : Z) (x : T).

Lemma iterate_ext {S : Type} (f g : Z → S → option S) (n : nat) :
  (∀ i s, f i s = g i s) →
  ∀ i step s, iterate n i step f s = iterate n i step g s.
Proof.
  intros Hfg. induction n as [|n IH]; intros i step s; simpl; [done|].
  rewrite Hfg. destruct (g i s); [apply IH|done].
Qed.

(** [for (j = i; ...; j++) array[j - 1] = array[j]]: the slots move one
    place down. *)
Lemma shift_down_loop (n : nat) :
  ∀ i a,
    1 ≤ i →
    i + Z.of_nat n ≤ Z.of_nat (length a) →
    ∃ a',
      iterate n i 1 (λ j a, x ← slot_read a j; slot_write a (j - 1) x) a
        = Some a'
      ∧ length a' = length a
      ∧ (∀ j, i - 1 ≤ j < i - 1 + Z.of_nat n →
           slot_read a' j = slot_read a (j + 1))
      ∧ (∀ j, ¬ (i - 1 ≤ j < i - 1 + Z.of_nat n) →
           slot_read a' j = slot_read a j).
Proof.
  induction n as [|n IH]; intros i a Hi Hfit.
  - exists a. simpl. repeat split; try done. intros; lia.
  - destruct (slot_read_in_range a i) as [x Hx]; [lia|].
    destruct (slot_write_in_range a (i - 1) x) as [a1 Ha1]; [lia|].
    pose proof (slot_write_length _ _ _ _ Ha1) as Hlen1.
    destruct (IH (i + 1) a1) as (a' & Hrun & Hlen & Hmoved & Hkept); [lia..|].
    exists a'. simpl. rewrite Hx. simpl. rewrite Ha1.
    split; [exact Hrun|]. split; [congruence|]. split.
    + intros j Hj. destruct (decide (j = i - 1)) as [->|Hne].
      * rewrite Hkept by lia. replace (i - 1 + 1) with i by lia.
        rewrite Hx. eapply slot_read_write_eq, Ha1.
      * rewrite Hmoved by lia.
        eapply slot_read_write_ne; [exact Ha1|lia].
    + intros j Hj. rewrite Hkept by lia.
      eapply slot_read_write_ne; [exact Ha1|lia].
Qed.

(** [for (j = i; ...; j--) array[j + 1] = array[j]]: the slots move one
    place up. *)
Lemma shift_up_loop (n : nat) :
  ∀ i a,
    0 ≤ i - Z.of_nat n + 1 →
    i + 1 < Z.of_nat (length a) ∨ n = 0%nat →
    ∃ a',
      iterate n i (-1) (λ j a, x ← slot_read a j; slot_write a (j + 1) x) a
        = Some a'
      ∧ length a' = length a
      ∧ (∀ j, i - Z.of_nat n < j ≤ i →
           slot_read a' (j + 1) = slot_read a j)
      ∧ (∀ j, ¬ (i - Z.of_nat n + 1 < j ≤ i + 1) →
           slot_read a' j = slot_read a j).
Proof.
  induction n as [|n IH]; intros i a Hlo Hfit.
  - exists a. simpl. repeat split; try done. intros; lia.
  - destruct Hfit as [Hfit|?]; [|done].
    destruct (slot_read_in_range a i) as [x Hx]; [lia|].
    destruct (slot_write_in_range a (i + 1) x) as [a1 Ha1]; [lia|].
    pose proof (slot_write_length _ _ _ _ Ha1) as Hlen1.
    destruct (IH (i + -1) a1) as (a' & Hrun & Hlen & Hmoved & Hkept);
      [lia|left; lia|].
    exists a'. simpl. rewrite Hx. simpl. rewrite Ha1.
    split; [exact Hrun|]. split; [congruence|]. split.
    + intros j Hj. destruct (decide (j = i)) as [->|Hne].
      * rewrite Hkept by lia. rewrite Hx. eapply slot_read_write_eq, Ha1.
      * rewrite Hmoved by lia.
        eapply slot_read_write_ne; [exact Ha1|lia].
    + intros j Hj. rewrite Hkept by lia.
      eapply slot_read_write_ne; [exact Ha1|lia].
Qed.
End LoopFacts.
(** ** Leaf pages: lookup, insertion, removal *)

Section LeafMoreFacts.
Import BPlusTreeLeafPage.
Context {KeyType ValueType : Type}.
Variable comparator : KeyType → KeyType → Z.
Variable int_eq_key : Z → KeyType → bool.
Implicit Types (L R : page KeyType ValueType) (key : KeyType).

Lemma Lookup_from_first_match L key (n : nat) :
  ∀ i,
    0 ≤ i →
    i + Z.of_nat n ≤ Z.of_nat (length (array L)) →
    (∃ r item,
        Lookup_from comparator L key n i = Some (Some item.2)
        ∧ i ≤ r < i + Z.of_nat n
        ∧ GetItem L r = Some item
        ∧ comparator key item.1 = 0
        ∧ (∀ j it, i ≤ j < r → GetItem L j = Some it →
             comparator key it.1 ≠ 0))
    ∨ (Lookup_from comparator L key n i = Some None
       ∧ ∀ j it, i ≤ j < i + Z.of_nat n → GetItem L j = Some it →
           comparator key it.1 ≠ 0).
Proof.
  induction n as [|n IH]; intros i Hi Hfit; simpl.
  - right. split; [done|]. intros; lia.
  - destruct (slot_read_in_range (array L) i) as [item Hitem]; [lia|].
    rewrite Hitem. simpl. case_decide as Hcmp.
    + left. exists i, item. repeat split; try done; try lia.
    + assert (Hhere : ∀ j it, j = i → GetItem L j = Some it →
                comparator key it.1 ≠ 0).
      { intros j it -> Hit. unfold GetItem in Hit. congruence. }
      destruct (IH (i + 1)) as [(r & it & Hr & Hrange & Hit & Hz & Hbelow)|[Hr Hnone]];
        [lia..| |].
      * left. exists r, it. split; [done|]. split; [lia|].
        split; [done|]. split; [done|]. intros j it' Hj Hit'.
        destruct (decide (j = i)); [by eapply Hhere|].
        apply (Hbelow j); [lia|done].
      * right. split; [done|]. intros j it' Hj Hit'.
        destruct (decide (j = i)); [by eapply Hhere|].
        apply (Hnone j); [lia|done].
Qed.

(** X1.  [Lookup] on a leaf whose slots lie in its buffer reports the value
    of the first slot below [size] whose key compares equal to the search
    key, and reports "absent" exactly when no slot below [size] does. *)
Theorem leaf_Lookup_first_match L key :
  GetSize L ≤ Z.of_nat (length (array L)) →
  (∃ r item,
      Lookup comparator L key = Some (Some item.2)
      ∧ 0 ≤ r < GetSize L
      ∧ GetItem L r = Some item
      ∧ comparator key item.1 = 0
      ∧ (∀ j it, 0 ≤ j < r → GetItem L j = Some it →
           comparator key it.1 ≠ 0))
  ∨ (Lookup comparator L key = Some None
     ∧ ∀ j it, 0 ≤ j < GetSize L → GetItem L j = Some it →
         comparator key it.1 ≠ 0).
Proof.
  intros Hfit. unfold Lookup.
  destruct (Lookup_from_first_match L key (Z.to_nat (GetSize L)) 0)
    as [(r & it & Hr & Hrange & Hit & Hz & Hbelow)|[Hr Hnone]]; [lia..| |].
  - left. exists r, it. repeat split; try done; try lia.
  - right. split; [done|]. intros j it Hj. apply Hnone. lia.
Qed.

(** A key that no slot below [size] matches is reported absent. *)
Lemma Lookup_absent L key :
  GetSize L ≤ Z.of_nat (length (array L)) →
  (∀ j it, 0 ≤ j < GetSize L → GetItem L j = Some it →
     comparator key it.1 ≠ 0) →
  Lookup comparator L key = Some None.
Proof.
  intros Hfit Hnone. unfold Lookup.
  destruct (Lookup_from_first_match L key (Z.to_nat (GetSize L)) 0)
    as [(r & it & _ & Hrange & Hit & Hz & _)|[Hr _]]; [lia..| |done].
  exfalso. eapply (Hnone r); [lia|done|done].
Qed.

(** A key matched first at slot [r] is reported with the value of slot [r]. *)
Lemma Lookup_found L key (r : Z) (item : KeyType * ValueType) :
  GetSize L ≤ Z.of_nat (length (array L)) →
  0 ≤ r < GetSize L →
  GetItem L r = Some item →
  comparator key item.1 = 0 →
  (∀ j it, 0 ≤ j < r → GetItem L j = Some it → comparator key it.1 ≠ 0) →
  Lookup comparator L key = Some (Some item.2).
Proof.
  intros Hfit Hr Hitem Hz Hbelow. unfold Lookup.
  destruct (Lookup_from_first_match L key (Z.to_nat (GetSize L)) 0)
    as [(r' & it & Hres & Hrange & Hit & Hz' & Hbelow')|[_ Hnone]]; [lia..| |].
  - destruct (Z.lt_trichotomy r r') as [Hlt|[->|Hgt]].
    + exfalso. eapply (Hbelow' r); [lia|done|done].
    + congruence.
    + exfalso. eapply (Hbelow r'); [lia|done|done].
  - exfalso. eapply (Hnone r); [lia|done|done].
Qed.

End LeafMoreFacts.

Section LeafInsertFacts.
Import BPlusTreeLeafPage.
Context {KeyType ValueType : Type}.
Variable comparator : KeyType → KeyType → Z.
Variable int_eq_key : Z → KeyType → bool.
Implicit Types (L R : page KeyType ValueType) (key : KeyType).

Lemma Insert_scan_cases L key (n : nat) :
  ∀ i,
    0 ≤ i →
    i + Z.of_nat n ≤ Z.of_nat (length (array L)) →
    ((∃ r it, i ≤ r < i + Z.of_nat n ∧ GetItem L r = Some it
              ∧ int_eq_key (comparator it.1 key) key = true)
     ∧ Insert_scan comparator int_eq_key L key n i = Some (inl (GetSize L)))
    ∨ ((∀ j it, i ≤ j < i + Z.of_nat n → GetItem L j = Some it →
          int_eq_key (comparator it.1 key) key = false)
       ∧ Insert_scan comparator int_eq_key L key n i
         = Some (inr (i + Z.of_nat n))).
Proof.
  induction n as [|n IH]; intros i Hi Hfit; simpl.
  - right. split; [intros; lia|]. do 2 f_equal. lia.
  - destruct (slot_read_in_range (array L) i) as [item Hitem]; [lia|].
    change (slot_read (array L) i) with (GetItem L i) in Hitem.
    rewrite Hitem. simpl.
    destruct (int_eq_key (comparator item.1 key) key) eqn:Heq.
    + left. split; [|done]. exists i, item. split; [lia|]. by split.
    + destruct (IH (i + 1)) as [[(r & it & Hr & Hit & Htrue) Hres]|[Hnone Hres]];
        [lia..| |].
      * left. split; [|done]. exists r, it. split; [lia|]. by split.
      * right. split.
        -- intros j it Hj Hit. destruct (decide (j = i)) as [->|].
           ++ rewrite Hitem in Hit. by injection Hit as <-.
           ++ apply (Hnone j); [lia|done].
        -- rewrite Hres. do 2 f_equal. lia.
Qed.

Lemma Insert_appends L key (value : ValueType) :
  0 ≤ GetSize L < Z.of_nat (length (array L)) →
  (∀ j it, 0 ≤ j < GetSize L → GetItem L j = Some it →
     int_eq_key (comparator it.1 key) key = false) →
  ∃ L',
    Insert comparator int_eq_key L key value = Some (GetSize L + 1, L')
    ∧ hdr L' = BPlusTreePage.SetSize (hdr L) (GetSize L + 1)
    ∧ next_page_id_ L' = next_page_id_ L
    ∧ length (array L') = length (array L)
    ∧ GetItem L' (GetSize L) = Some (key, value)
    ∧ (∀ j, j ≠ GetSize L → GetItem L' j = GetItem L j).
Proof.
  intros Hsize Hnone. unfold Insert.
  destruct (Insert_scan_cases L key (Z.to_nat (GetSize L)) 0)
    as [[(r & it & Hr & Hit & Heq) _]|[_ Hscan]]; [lia..| |].
  { exfalso. rewrite (Hnone r it) in Heq; [done|lia|done]. }
  rewrite Z2Nat.id, Z.add_0_l in Hscan by lia.
  rewrite Hscan. cbn [mbind option_bind]. unfold for_down.
  unfold MappingType in *.
  replace (Z.to_nat (GetSize L - 1 - GetSize L + 1)) with 0%nat by lia.
  cbn [iterate mbind option_bind].
  destruct (slot_read_in_range (T := KeyType * ValueType) (array L)
              (GetSize L)) as [s Hs]; [lia|].
  rewrite Hs. cbn [mbind option_bind].
  destruct (slot_write_in_range (T := KeyType * ValueType) (array L)
              (GetSize L) (key, s.2))
    as [a1 Ha1]; [lia|].
  rewrite Ha1. cbn [mbind option_bind].
  rewrite (slot_read_write_eq _ _ _ _ Ha1). cbn [mbind option_bind fst].
  destruct (slot_write_in_range (T := KeyType * ValueType) a1 (GetSize L)
              (key, value)) as [a2 Ha2].
  { rewrite (slot_write_length _ _ _ _ Ha1). lia. }
  rewrite Ha2. cbn [mbind option_bind].
  eexists. split; [reflexivity|]. split; [reflexivity|].
  split; [reflexivity|]. split; [|split].
  - simpl. rewrite (slot_write_length _ _ _ _ Ha2).
    apply (slot_write_length _ _ _ _ Ha1).
  - unfold GetItem. simpl. eapply slot_read_write_eq, Ha2.
  - intros j Hj. unfold GetItem. simpl.
    etrans; [exact (slot_read_write_ne _ _ _ _ _ Ha2 Hj)|].
    exact (slot_read_write_ne _ _ _ _ _ Ha1 Hj).
Qed.

(** X2.  When the [== key] test of the leaf [Insert] fails on every occupied
    slot and the buffer has a free slot, [Insert] writes the pair into the
    slot right after the occupied ones, whatever the order of the keys,
    raises the size by one and leaves every other slot and header field as
    it was. *)
Theorem leaf_Insert_appends L key (value : ValueType) :
  0 ≤ GetSize L < Z.of_nat (length (array L)) →
  (∀ j it, 0 ≤ j < GetSize L → GetItem L j = Some it →
     int_eq_key (comparator it.1 key) key = false) →
  ∃ L',
    Insert comparator int_eq_key L key value = Some (GetSize L + 1, L')
    ∧ hdr L' = BPlusTreePage.SetSize (hdr L) (GetSize L + 1)
    ∧ next_page_id_ L' = next_page_id_ L
    ∧ length (array L') = length (array L)
    ∧ GetItem L' (GetSize L) = Some (key, value)
    ∧ (∀ j, j ≠ GetSize L → GetItem L' j = GetItem L j).
Proof. apply Insert_appends. Qed.

(** X3.  When the [== key] test of the leaf [Insert] succeeds on some
    occupied slot, [Insert] returns the unchanged size and leaves the page
    as it was: nothing is inserted. *)
Theorem leaf_Insert_skips L key (value : ValueType) (r : Z)
    (it : KeyType * ValueType) :
  GetSize L ≤ Z.of_nat (length (array L)) →
  0 ≤ r < GetSize L →
  GetItem L r = Some it →
  int_eq_key (comparator it.1 key) key = true →
  Insert comparator int_eq_key L key value = Some (GetSize L, L).
Proof.
  intros Hfit Hr Hit Heq. unfold Insert.
  destruct (Insert_scan_cases L key (Z.to_nat (GetSize L)) 0)
    as [[_ Hscan]|[Hnone _]]; [lia..| |].
  - by rewrite Hscan.
  - rewrite (Hnone r it) in Heq; [done|lia|done].
Qed.

(** X4.  Insert then lookup on a leaf: after an [Insert] that appends
    (see X2) a key that compares equal to itself and to no key already on
    the page, [Lookup] of that key reports the inserted value. *)
Theorem leaf_Insert_then_Lookup L key (value : ValueType) :
  0 ≤ GetSize L < Z.of_nat (length (array L)) →
  (∀ j it, 0 ≤ j < GetSize L → GetItem L j = Some it →
     int_eq_key (comparator it.1 key) key = false) →
  comparator key key = 0 →
  (∀ j it, 0 ≤ j < GetSize L → GetItem L j = Some it →
     comparator key it.1 ≠ 0) →
  ∃ L',
    Insert comparator int_eq_key L key value = Some (GetSize L + 1, L')
    ∧ Lookup comparator L' key = Some (Some value).
Proof.
  intros Hsize Hnone Hrefl Hfresh.
  destruct (Insert_appends L key value Hsize Hnone)
    as (L' & Hins & Hhdr & _ & Hlen & Hnew & Hold).
  exists L'. split; [done|].
  assert (HsizeL' : GetSize L' = GetSize L + 1) by (unfold GetSize; by rewrite Hhdr).
  apply (Lookup_found comparator L' key (GetSize L) (key, value)).
  - rewrite HsizeL', Hlen. lia.
  - lia.
  - done.
  - done.
  - intros j it Hj Hit. rewrite Hold in Hit by lia. by eapply Hfresh.
Qed.

(** X5.  An appending [Insert] (see X2) of [key] leaves the lookup of every
    other key, one that does not compare equal to [key], as it was. *)
Theorem leaf_Insert_keeps_other_lookups L key (value : ValueType)
    (other : KeyType) :
  0 ≤ GetSize L < Z.of_nat (length (array L)) →
  (∀ j it, 0 ≤ j < GetSize L → GetItem L j = Some it →
     int_eq_key (comparator it.1 key) key = false) →
  comparator other key ≠ 0 →
  ∃ L',
    Insert comparator int_eq_key L key value = Some (GetSize L + 1, L')
    ∧ Lookup comparator L' other = Lookup comparator L other.
Proof.
  intros Hsize Hnone Hother.
  destruct (Insert_appends L key value Hsize Hnone)
    as (L' & Hins & Hhdr & _ & Hlen & Hnew & Hold).
  exists L'. split; [done|].
  assert (HsizeL' : GetSize L' = GetSize L + 1) by (unfold GetSize; by rewrite Hhdr).
  unfold Lookup at 2.
  destruct (Lookup_from_first_match comparator L other (Z.to_nat (GetSize L)) 0)
    as [(r & it & Hres & Hrange & Hit & Hz & Hbelow)|[Hres Habsent]]; [lia..| |].
  - rewrite Hres.
    apply (Lookup_found comparator L' other r it).
    + rewrite HsizeL', Hlen. lia.
    + lia.
    + rewrite Hold by lia. done.
    + done.
    + intros j it' Hj Hit'. rewrite Hold in Hit' by lia.
      apply (Hbelow j it'); [lia|done].
  - rewrite Hres. apply Lookup_absent.
    + rewrite HsizeL', Hlen. lia.
    + intros j it' Hj Hit'. destruct (decide (j = GetSize L)) as [->|Hne].
      * rewrite Hnew in Hit'. injection Hit' as <-. done.
      * rewrite Hold in Hit' by done. apply (Habsent j it'); [lia|done].
Qed.
End LeafInsertFacts.

Section LeafRemoveFacts.
Import BPlusTreeLeafPage.
Context {KeyType ValueType : Type}.
Variable comparator : KeyType → KeyType → Z.
Implicit Types (L R : page KeyType ValueType) (key : KeyType).

Lemma Remove_from_absent L key (n : nat) :
  ∀ i,
    0 ≤ i →
    i + Z.of_nat n ≤ Z.of_nat (length (array L)) →
    (∀ j it, i ≤ j < i + Z.of_nat n → GetItem L j = Some it →
       comparator key it.1 ≠ 0) →
    Remove_from comparator L key n i = Some (GetSize L, L).
Proof.
  induction n as [|n IH]; intros i Hi Hfit Hnone; simpl; [done|].
  destruct (slot_read_in_range (array L) i) as [item Hitem]; [lia|].
  rewrite Hitem. simpl. rewrite decide_False.
  - apply IH; [lia..|]. intros j it Hj. apply Hnone. lia.
  - apply (Hnone i); [lia|done].
Qed.

Lemma Remove_from_present L key (r : Z) (item : KeyType * ValueType) (n : nat) :
  ∀ i,
    0 ≤ i ≤ r → r < i + Z.of_nat n →
    r < GetSize L ≤ Z.of_nat (length (array L)) →
    GetItem L r = Some item →
    comparator key item.1 = 0 →
    (∀ j it, i ≤ j < r → GetItem L j = Some it → comparator key it.1 ≠ 0) →
    ∃ L',
      Remove_from comparator L key n i = Some (GetSize L - 1, L')
      ∧ hdr L' = BPlusTreePage.SetSize (hdr L) (GetSize L - 1)
      ∧ next_page_id_ L' = next_page_id_ L
      ∧ length (array L') = length (array L)
      ∧ (∀ j, r ≤ j < GetSize L - 1 → GetItem L' j = GetItem L (j + 1))
      ∧ (∀ j, ¬ (r ≤ j < GetSize L - 1) → GetItem L' j = GetItem L j).
Proof.
  induction n as [|n IH]; intros i Hi Hn Hsize Hitem Hzero Hbelow; [lia|].
  simpl. destruct (decide (i = r)) as [->|Hne].
  - unfold GetItem in Hitem. rewrite Hitem. simpl.
    rewrite decide_True by done. unfold for_up.
    unfold MappingType in *.
    destruct (shift_down_loop (T := KeyType * ValueType)
                (Z.to_nat (GetSize L - (r + 1))) (r + 1) (array L))
      as (a' & Hrun & Hlen & Hmoved & Hkept); [lia..|].
    rewrite Hrun. simpl.
    eexists. split; [reflexivity|]. split; [reflexivity|].
    split; [reflexivity|]. split; [exact Hlen|]. split.
    + intros j Hj. unfold GetItem. simpl. apply Hmoved. lia.
    + intros j Hj. unfold GetItem. simpl. apply Hkept. lia.
  - destruct (slot_read_in_range (array L) i) as [it Hit]; [lia|].
    rewrite Hit. simpl. rewrite decide_False.
    + apply IH; try done; try lia. intros j it' Hj. apply Hbelow. lia.
    + apply (Hbelow i); [lia|done].
Qed.

(** X6.  [RemoveAndDeleteRecord] of a key that no occupied slot matches
    returns the unchanged size and leaves the page as it was. *)
Theorem leaf_Remove_absent L key :
  GetSize L ≤ Z.of_nat (length (array L)) →
  (∀ j it, 0 ≤ j < GetSize L → GetItem L j = Some it →
     comparator key it.1 ≠ 0) →
  RemoveAndDeleteRecord comparator L key = Some (GetSize L, L).
Proof.
  intros Hfit Hnone. unfold RemoveAndDeleteRecord.
  apply Remove_from_absent; [lia..|]. intros j it Hj. apply Hnone. lia.
Qed.

(** X7.  [RemoveAndDeleteRecord] of a key first matched at slot [r] returns
    [size - 1], keeps the slots below [r], moves every later occupied slot
    one place down, and changes no header field but the size. *)
Theorem leaf_Remove_compacts L key (r : Z) (item : KeyType * ValueType) :
  GetSize L ≤ Z.of_nat (length (array L)) →
  0 ≤ r < GetSize L →
  GetItem L r = Some item →
  comparator key item.1 = 0 →
  (∀ j it, 0 ≤ j < r → GetItem L j = Some it → comparator key it.1 ≠ 0) →
  ∃ L',
    RemoveAndDeleteRecord comparator L key = Some (GetSize L - 1, L')
    ∧ hdr L' = BPlusTreePage.SetSize (hdr L) (GetSize L - 1)
    ∧ next_page_id_ L' = next_page_id_ L
    ∧ (∀ j, 0 ≤ j < r → GetItem L' j = GetItem L j)
    ∧ (∀ j, r ≤ j < GetSize L - 1 → GetItem L' j = GetItem L (j + 1)).
Proof.
  intros Hfit Hr Hitem Hzero Hbelow. unfold RemoveAndDeleteRecord.
  destruct (Remove_from_present L key r item (Z.to_nat (GetSize L)) 0)
    as (L' & Hrun & Hhdr & Hnext & _ & Hmoved & Hkept); try done; try lia.
  exists L'. repeat split; try done. intros j Hj. apply Hkept. lia.
Qed.

(** X8.  Remove then lookup on a leaf: when the key matches exactly one
    occupied slot, [Lookup] after [RemoveAndDeleteRecord] reports it
    absent. *)
Theorem leaf_Remove_then_Lookup L key (r : Z) (item : KeyType * ValueType) :
  GetSize L ≤ Z.of_nat (length (array L)) →
  0 ≤ r < GetSize L →
  GetItem L r = Some item →
  comparator key item.1 = 0 →
  (∀ j it, 0 ≤ j < GetSize L → j ≠ r → GetItem L j = Some it →
     comparator key it.1 ≠ 0) →
  ∃ L',
    RemoveAndDeleteRecord comparator L key = Some (GetSize L - 1, L')
    ∧ Lookup comparator L' key = Some None.
Proof.
  intros Hfit Hr Hitem Hzero Hother. unfold RemoveAndDeleteRecord.
  destruct (Remove_from_present L key r item (Z.to_nat (GetSize L)) 0)
    as (L' & Hrun & Hhdr & Hnext & Hlen & Hmoved & Hkept); try done; try lia.
  { intros j it Hj. apply Hother; lia. }
  exists L'. split; [done|].
  assert (HsizeL' : GetSize L' = GetSize L - 1) by (unfold GetSize; by rewrite Hhdr).
  apply Lookup_absent.
  - rewrite HsizeL', Hlen. lia.
  - intros j it Hj Hit. destruct (decide (j < r)).
    + rewrite Hkept in Hit by lia. apply (Hother j it); [lia|lia|done].
    + rewrite Hmoved in Hit by lia. apply (Hother (j + 1) it); [lia|lia|done].
Qed.

(** X9.  [RemoveAndDeleteRecord] of [key] leaves the lookup of every other
    key, one that does not compare equal to the removed slot's key, as it
    was. *)
Theorem leaf_Remove_keeps_other_lookups L key (r : Z)
    (item : KeyType * ValueType) (other : KeyType) :
  GetSize L ≤ Z.of_nat (length (array L)) →
  0 ≤ r < GetSize L →
  GetItem L r = Some item →
  comparator key item.1 = 0 →
  (∀ j it, 0 ≤ j < r → GetItem L j = Some it → comparator key it.1 ≠ 0) →
  comparator other item.1 ≠ 0 →
  ∃ L',
    RemoveAndDeleteRecord comparator L key = Some (GetSize L - 1, L')
    ∧ Lookup comparator L' other = Lookup comparator L other.
Proof.
  intros Hfit Hr Hitem Hzero Hbelow Hother. unfold RemoveAndDeleteRecord.
  destruct (Remove_from_present L key r item (Z.to_nat (GetSize L)) 0)
    as (L' & Hrun & Hhdr & Hnext & Hlen & Hmoved & Hkept); try done; try lia.
  exists L'. split; [done|].
  assert (HsizeL' : GetSize L' = GetSize L - 1) by (unfold GetSize; by rewrite Hhdr).
  unfold Lookup at 2.
  destruct (Lookup_from_first_match comparator L other (Z.to_nat (GetSize L)) 0)
    as [(r0 & it0 & Hres & Hrange & Hit0 & Hz0 & Hbelow0)|[Hres Habsent]];
    [lia..| |].
  - rewrite Hres.
    assert (r0 ≠ r) as Hne by (intros ->; congruence).
    destruct (decide (r0 < r)).
    + apply (Lookup_found comparator L' other r0 it0).
      * rewrite HsizeL', Hlen. lia.
      * lia.
      * rewrite Hkept by lia. done.
      * done.
      * intros j it Hj Hit. rewrite Hkept in Hit by lia.
        apply (Hbelow0 j it); [lia|done].
    + apply (Lookup_found comparator L' other (r0 - 1) it0).
      * rewrite HsizeL', Hlen. lia.
      * lia.
      * rewrite Hmoved by lia. by replace (r0 - 1 + 1) with r0 by lia.
      * done.
      * intros j it Hj Hit. destruct (decide (j < r)).
        -- rewrite Hkept in Hit by lia. apply (Hbelow0 j it); [lia|done].
        -- rewrite Hmoved in Hit by lia.
           apply (Hbelow0 (j + 1) it); [lia|done].
  - rewrite Hres. apply Lookup_absent.
    + rewrite HsizeL', Hlen. lia.
    + intros j it Hj Hit. destruct (decide (j < r)).
      * rewrite Hkept in Hit by lia. apply (Habsent j it); [lia|done].
      * rewrite Hmoved in Hit by lia. apply (Habsent (j + 1) it); [lia|done].
Qed.
End LeafRemoveFacts.

Section LeafMoveFacts.
Import BPlusTreeLeafPage.
Context {KeyType ValueType : Type}.
Implicit Types (L R : page KeyType ValueType).

Lemma CopyAllFrom_appends R (items : list (KeyType * ValueType)) (s : Z) :
  0 ≤ s ≤ Z.of_nat (length items) →
  0 ≤ GetSize R →
  GetSize R + s ≤ Z.of_nat (length (array R)) →
  ∃ R',
    CopyAllFrom R items s = Some R'
    ∧ hdr R' = BPlusTreePage.SetSize (hdr R) (GetSize R + s)
    ∧ next_page_id_ R' = next_page_id_ R
    ∧ length (array R') = length (array R)
    ∧ (∀ j, 0 ≤ j < GetSize R → GetItem R' j = GetItem R j)
    ∧ (∀ j, 0 ≤ j < s → GetItem R' (GetSize R + j) = slot_read items j).
Proof.
  intros Hs Hr Hroom. unfold CopyAllFrom, for_up. unfold MappingType in *.
  rewrite (iterate_ext
             (λ i a, x ← slot_read items i; slot_write a (i + GetSize R) x)
             (λ i a, x ← slot_read items i;
                     slot_write a (i - 0 + GetSize R) x)).
  2:{ intros i a. by replace (i - 0 + GetSize R) with (i + GetSize R) by lia. }
  destruct (copy_loop items 0 (GetSize R) (Z.to_nat (s - 0)) 0 (array R))
    as (a' & Hrun & Hlen & Hcopied & Hkept); [lia..|].
  rewrite Hrun. simpl.
  eexists. split; [reflexivity|]. split; [reflexivity|].
  split; [reflexivity|]. split; [exact Hlen|]. split.
  - intros j Hj. unfold GetItem. simpl. apply Hkept. lia.
  - intros j Hj. unfold GetItem. simpl.
    replace (GetSize R + j) with (j - 0 + GetSize R) by lia.
    apply Hcopied. lia.
Qed.

Lemma MoveAllTo_appends L R :
  0 ≤ GetSize L ≤ Z.of_nat (length (array L)) →
  0 ≤ GetSize R →
  GetSize R + GetSize L ≤ Z.of_nat (length (array R)) →
  ∃ R',
    MoveAllTo L R = Some (SetSize L 0, R')
    ∧ hdr R' = BPlusTreePage.SetSize (hdr R) (GetSize R + GetSize L)
    ∧ next_page_id_ R' = next_page_id_ R
    ∧ length (array R') = length (array R)
    ∧ (∀ j, 0 ≤ j < GetSize R → GetItem R' j = GetItem R j)
    ∧ (∀ j, 0 ≤ j < GetSize L → GetItem R' (GetSize R + j) = GetItem L j).
Proof.
  intros HL HR Hroom. unfold MoveAllTo.
  destruct (CopyAllFrom_appends R (array L) (GetSize L) HL HR Hroom)
    as (R' & Hrun & Hrest).
  rewrite Hrun. simpl. exists R'. split; [|exact Hrest].
  by destruct L.
Qed.

(** X10.  [MoveAllTo] on leaves: the recipient keeps its occupied slots and
    receives the donor's occupied slots after them, its size grows by the
    donor's size and its next link is not touched; the donor's size becomes
    0 and its next link keeps its value. *)
Theorem leaf_MoveAllTo_appends L R :
  0 ≤ GetSize L ≤ Z.of_nat (length (array L)) →
  0 ≤ GetSize R →
  GetSize R + GetSize L ≤ Z.of_nat (length (array R)) →
  ∃ L' R',
    MoveAllTo L R = Some (L', R')
    ∧ GetSize L' = 0
    ∧ GetNextPageId L' = GetNextPageId L
    ∧ GetSize R' = GetSize R + GetSize L
    ∧ GetNextPageId R' = GetNextPageId R
    ∧ (∀ j, 0 ≤ j < GetSize R → GetItem R' j = GetItem R j)
    ∧ (∀ j, 0 ≤ j < GetSize L → GetItem R' (GetSize R + j) = GetItem L j).
Proof.
  intros HL HR Hroom.
  destruct (MoveAllTo_appends L R HL HR Hroom)
    as (R' & Hrun & Hhdr & Hnext & _ & Hkept & Hmoved).
  exists (SetSize L 0), R'. split; [done|]. split; [done|]. split; [done|].
  split; [unfold GetSize; by rewrite Hhdr|]. by split.
Qed.

Lemma MoveHalfTo_run L R (s : Z) :
  GetSize L = s →
  0 ≤ s ≤ Z.of_nat (length (array L)) →
  (s + 1) `div` 2 ≤ Z.of_nat (length (array R)) →
  ∃ R',
    MoveHalfTo L R = Some (SetSize L (s `div` 2), R')
    ∧ hdr R' = BPlusTreePage.SetSize (hdr R) ((s + 1) `div` 2)
    ∧ length (array R') = length (array R)
    ∧ (∀ j, 0 ≤ j < (s + 1) `div` 2 →
         GetItem R' j = GetItem L (s `div` 2 + j)).
Proof.
  intros Hs Hrange Hroom.
  assert (Hq : s `quot` 2 = s `div` 2) by (apply Z.quot_div_nonneg; lia).
  assert (Hceil : s - s `div` 2 = (s + 1) `div` 2)
    by (Z.div_mod_to_equations; lia).
  assert (0 ≤ s `div` 2 ≤ s) by (Z.div_mod_to_equations; lia).
  unfold MoveHalfTo, CopyHalfFrom, for_up. rewrite Hs, Hq.
  destruct (copy_loop (array L) s (s - s `div` 2)
              (Z.to_nat (s - (s - (s - s `div` 2))))
              (s - (s - s `div` 2)) (array R))
    as (a' & Hrun & Hlen & Hcopied & _); [lia..|].
  rewrite Hrun. simpl. eexists. split; [reflexivity|].
  split; [simpl; by rewrite Hceil|]. split; [exact Hlen|].
  intros j Hj. unfold GetItem. simpl.
  replace j with ((s `div` 2 + j) - s + (s - s `div` 2)) at 1 by lia.
  apply Hcopied. lia.
Qed.

(** X11.  Split then merge on leaves: after [L.MoveHalfTo(R)] followed by
    [R.MoveAllTo(L)], [L] has its old size again and every slot below it
    holds what it held before. *)
Theorem leaf_split_then_merge L R (s : Z) :
  GetSize L = s →
  0 ≤ s ≤ Z.of_nat (length (array L)) →
  (s + 1) `div` 2 ≤ Z.of_nat (length (array R)) →
  ∃ L1 R1 R2 L2,
    MoveHalfTo L R = Some (L1, R1)
    ∧ MoveAllTo R1 L1 = Some (R2, L2)
    ∧ GetSize L2 = s
    ∧ GetSize R2 = 0
    ∧ (∀ j, 0 ≤ j < s → GetItem L2 j = GetItem L j).
Proof.
  intros Hs Hrange Hroom.
  assert (Hsum : s `div` 2 + (s + 1) `div` 2 = s)
    by (Z.div_mod_to_equations; lia).
  assert (0 ≤ s `div` 2) by (Z.div_mod_to_equations; lia).
  assert (0 ≤ (s + 1) `div` 2) by (Z.div_mod_to_equations; lia).
  destruct (MoveHalfTo_run L R s Hs Hrange Hroom)
    as (R1 & Hsplit & HhdrR1 & HlenR1 & HitemsR1).
  assert (HsizeR1 : GetSize R1 = (s + 1) `div` 2)
    by (unfold GetSize; by rewrite HhdrR1).
  destruct (MoveAllTo_appends R1 (SetSize L (s `div` 2)))
    as (L2 & Hmerge & HhdrL2 & _ & _ & Hkept & Hmoved).
  { rewrite HsizeR1, HlenR1. lia. }
  { done. }
  { rewrite HsizeR1. change (GetSize (SetSize L (s `div` 2))) with (s `div` 2).
    change (array (SetSize L (s `div` 2))) with (array L). lia. }
  change (GetSize (SetSize L (s `div` 2))) with (s `div` 2) in *.
  exists (SetSize L (s `div` 2)), R1, (SetSize R1 0), L2.
  split; [done|]. split; [done|]. split.
  { unfold GetSize. rewrite HhdrL2. simpl. rewrite HsizeR1. lia. }
  split; [done|].
  intros j Hj. destruct (decide (j < s `div` 2)).
  - rewrite Hkept by lia. done.
  - replace j with (s `div` 2 + (j - s `div` 2)) at 1 by lia.
    rewrite Hmoved by lia. rewrite HitemsR1 by lia. f_equal. lia.
Qed.
End LeafMoveFacts.

Section LeafOrderedFacts.
Import BPlusTreeLeafPage.
Context {KeyType ValueType : Type}.
Variable comparator : KeyType → KeyType → Z.
Implicit Types (L : page KeyType ValueType) (key : KeyType).

Hypothesis comparator_flip :
  ∀ a b, comparator a b > 0 ↔ comparator b a < 0.
Hypothesis comparator_lt_eq :
  ∀ a b c, comparator a b < 0 → comparator b c = 0 → comparator a c < 0.

(** X12.  On a leaf with strictly ascending keys, whenever [Lookup] finds
    the key, [KeyIndex] returns the slot that holds it. *)
Theorem leaf_KeyIndex_agrees_with_Lookup L key (value : ValueType) :
  GetSize L ≤ Z.of_nat (length (array L)) →
  (∀ i j ki kj, 0 ≤ i < j → j < GetSize L →
     KeyAt L i = Some ki → KeyAt L j = Some kj → comparator ki kj < 0) →
  Lookup comparator L key = Some (Some value) →
  ∃ r k,
    KeyIndex comparator L key = Some r
    ∧ 0 ≤ r < GetSize L
    ∧ GetItem L r = Some (k, value)
    ∧ comparator key k = 0.
Proof.
  intros Hfit Hsorted Hfound. unfold Lookup in Hfound.
  destruct (Lookup_from_first_match comparator L key (Z.to_nat (GetSize L)) 0)
    as [(r & it & Hres & Hrange & Hit & Hz & Hbelow)|[Hres _]];
    [lia..| |congruence].
  rewrite Hres in Hfound. injection Hfound as Hv.
  assert (Hkr : KeyAt L r = Some it.1).
  { unfold KeyAt. unfold GetItem in Hit. by rewrite Hit. }
  assert (Hzero : comparator it.1 key = 0).
  { pose proof (comparator_flip key it.1). pose proof (comparator_flip it.1 key).
    lia. }
  unfold KeyIndex.
  destruct (KeyIndex_from_first_ge comparator L key (Z.to_nat (GetSize L)) 0)
    as (r' & Hr' & [(Hrange' & (k' & Hk' & Hge) & Hbelow')|[-> Hnone]]);
    [lia..| |].
  - exists r, it.1. rewrite Hr'. destruct (Z.lt_trichotomy r r') as [Hlt|[->|Hgt]].
    + pose proof (Hbelow' r it.1 ltac:(lia) Hkr). lia.
    + split; [done|]. split; [lia|]. split; [|done].
      rewrite Hit. by destruct it; simpl in *; subst.
    + pose proof (Hsorted r' r k' it.1 ltac:(lia) ltac:(lia) Hk' Hkr) as Hlt.
      pose proof (comparator_lt_eq _ _ _ Hlt Hzero). lia.
  - pose proof (Hnone r it.1 ltac:(lia) Hkr). lia.
Qed.
End LeafOrderedFacts.

(** ** Internal pages: search, insertion, split, removal *)

Section InternalMoreFacts.
Import BPlusTreeInternalPage.
Context {KeyType : Type}.
Implicit Types (p : page KeyType) (key : KeyType) (v : ValueType).

Lemma ValueIndex_from_first p v (n : nat) :
  ∀ i,
    0 ≤ i →
    i + Z.of_nat n ≤ Z.of_nat (length (array p)) →
    ∃ r,
      ValueIndex_from p v n i = Some r
      ∧ ((i ≤ r < i + Z.of_nat n
          ∧ ValueAt p r = Some v
          ∧ (∀ j w, i ≤ j < r → ValueAt p j = Some w → w ≠ v))
         ∨ (r = -1
            ∧ ∀ j w, i ≤ j < i + Z.of_nat n → ValueAt p j = Some w → w ≠ v)).
Proof.
  induction n as [|n IH]; intros i Hi Hfit; simpl.
  - exists (-1). split; [done|]. right. split; [done|]. intros; lia.
  - destruct (ValueAt_in_range p i) as [w Hw]; [lia|].
    rewrite Hw. simpl. case_decide as Heq.
    + exists i. split; [done|]. left. split; [lia|]. split; [by subst|].
      intros; lia.
    + destruct (IH (i + 1)) as (r & Hr & Hcases); [lia..|].
      exists r. split; [done|].
      destruct Hcases as [(Hrange & Hat & Hbelow)|[-> Hnone]].
      * left. split; [lia|]. split; [done|]. intros j w' Hj Hw'.
        destruct (decide (j = i)) as [->|]; [congruence|].
        apply (Hbelow j); [lia|done].
      * right. split; [done|]. intros j w' Hj Hw'.
        destruct (decide (j = i)) as [->|]; [congruence|].
        apply (Hnone j); [lia|done].
Qed.

(** X13.  [ValueIndex] on an internal page whose slots lie in its buffer
    returns the smallest slot below [size] holding the child id, and [-1]
    exactly when no slot below [size] holds it. *)
Theorem internal_ValueIndex_first p v :
  GetSize p ≤ Z.of_nat (length (array p)) →
  ∃ r,
    ValueIndex p v = Some r
    ∧ ((0 ≤ r < GetSize p
        ∧ ValueAt p r = Some v
        ∧ (∀ j w, 0 ≤ j < r → ValueAt p j = Some w → w ≠ v))
       ∨ (r = -1
          ∧ ∀ j w, 0 ≤ j < GetSize p → ValueAt p j = Some w → w ≠ v)).
Proof.
  intros Hfit. unfold ValueIndex.
  destruct (ValueIndex_from_first p v (Z.to_nat (GetSize p)) 0)
    as (r & Hr & Hcases); [lia..|].
  exists r. split; [done|].
  destruct Hcases as [(Hrange & Hat & Hbelow)|[-> Hnone]].
  - left. split; [lia|]. split; [done|]. intros j w Hj. apply Hbelow. lia.
  - right. split; [done|]. intros j w Hj. apply Hnone. lia.
Qed.

Lemma ValueIndex_range p v (r : Z) :
  GetSize p ≤ Z.of_nat (length (array p)) →
  ValueIndex p v = Some r →
  -1 ≤ r ∧ (r < GetSize p ∨ r = -1).
Proof.
  intros Hfit Hr. unfold ValueIndex in Hr.
  destruct (ValueIndex_from_first p v (Z.to_nat (GetSize p)) 0)
    as (r' & Hr' & Hcases); [lia..|].
  rewrite Hr' in Hr. injection Hr as <-.
  destruct Hcases as [(Hrange & _)|[-> _]]; lia.
Qed.

Lemma InsertNodeAfter_run p (old_value : ValueType) key (new_value : ValueType)
    (index : Z) :
  0 ≤ GetSize p < Z.of_nat (length (array p)) →
  ValueIndex p old_value = Some index →
  ∃ p',
    InsertNodeAfter p old_value key new_value = Some (GetSize p + 1, p')
    ∧ hdr p' = BPlusTreePage.SetSize (hdr p) (GetSize p + 1)
    ∧ length (array p') = length (array p)
    ∧ slot_read (array p') (index + 1) = Some (key, new_value)
    ∧ (∀ j, j ≤ index → slot_read (array p') j = slot_read (array p) j)
    ∧ (∀ j, index + 1 < j ≤ GetSize p →
         slot_read (array p') j = slot_read (array p) (j - 1))
    ∧ (∀ j, GetSize p < j → slot_read (array p') j = slot_read (array p) j).
Proof.
  intros Hsize Hindex.
  destruct (ValueIndex_range p old_value index) as [Hlo Hhi]; [lia|done|].
  unfold InsertNodeAfter. rewrite Hindex. cbn [mbind option_bind].
  unfold for_down, SetKeyAt, SetValueAt, MappingType in *.
  destruct (shift_up_loop (T := KeyType * ValueType)
              (Z.to_nat (GetSize p - 1 - (index + 1) + 1)) (GetSize p - 1)
              (array p))
    as (a' & Hrun & Hlen & Hmoved & Hkept); [lia|left; lia|].
  rewrite Hrun. cbn [mbind option_bind array with_array].
  destruct (slot_read_in_range a' (index + 1)) as [s Hs]; [lia|].
  rewrite Hs. cbn [mbind option_bind].
  destruct (slot_write_in_range a' (index + 1) (key, s.2)) as [a1 Ha1]; [lia|].
  rewrite Ha1. cbn [mbind option_bind array with_array].
  rewrite (slot_read_write_eq _ _ _ _ Ha1). cbn [mbind option_bind fst].
  pose proof (slot_write_length _ _ _ _ Ha1) as Hlen1.
  destruct (slot_write_in_range a1 (index + 1) (key, new_value)) as [a2 Ha2];
    [lia|].
  rewrite Ha2. cbn [mbind option_bind].
  pose proof (slot_write_length _ _ _ _ Ha2) as Hlen2.
  eexists. split; [reflexivity|]. split; [reflexivity|].
  split; [simpl; congruence|]. split; [|split; [|split]]; simpl.
  - eapply slot_read_write_eq, Ha2.
  - intros j Hj.
    etrans; [exact (slot_read_write_ne _ _ j _ _ Ha2 ltac:(lia))|].
    etrans; [exact (slot_read_write_ne _ _ j _ _ Ha1 ltac:(lia))|].
    apply Hkept. lia.
  - intros j Hj.
    etrans; [exact (slot_read_write_ne _ _ j _ _ Ha2 ltac:(lia))|].
    etrans; [exact (slot_read_write_ne _ _ j _ _ Ha1 ltac:(lia))|].
    replace j with (j - 1 + 1) at 1 by lia. apply Hmoved. lia.
  - intros j Hj.
    etrans; [exact (slot_read_write_ne _ _ j _ _ Ha2 ltac:(lia))|].
    etrans; [exact (slot_read_write_ne _ _ j _ _ Ha1 ltac:(lia))|].
    apply Hkept. lia.
Qed.

(** X14.  [InsertNodeAfter] on a page with a free slot: with [index] the
    result of [ValueIndex(old_value)], the new pair is written into slot
    [index + 1], the slots up to [index] stay, the occupied slots after it
    move one place up, and the size grows by one. *)
Theorem internal_InsertNodeAfter_places p (old_value : ValueType) key
    (new_value : ValueType) (index : Z) :
  0 ≤ GetSize p < Z.of_nat (length (array p)) →
  ValueIndex p old_value = Some index →
  ∃ p',
    InsertNodeAfter p old_value key new_value = Some (GetSize p + 1, p')
    ∧ GetSize p' = GetSize p + 1
    ∧ KeyAt p' (index + 1) = Some key
    ∧ ValueAt p' (index + 1) = Some new_value
    ∧ (∀ j, 0 ≤ j ≤ index →
         KeyAt p' j = KeyAt p j ∧ ValueAt p' j = ValueAt p j)
    ∧ (∀ j, index + 1 < j ≤ GetSize p →
         KeyAt p' j = KeyAt p (j - 1) ∧ ValueAt p' j = ValueAt p (j - 1)).
Proof.
  intros Hsize Hindex.
  destruct (InsertNodeAfter_run p old_value key new_value index Hsize Hindex)
    as (p' & Hrun & Hhdr & _ & Hnew & Hbelow & Habove & _).
  exists p'. split; [done|]. split; [unfold GetSize; by rewrite Hhdr|].
  unfold KeyAt, ValueAt. rewrite Hnew. split; [done|]. split; [done|]. split.
  - intros j Hj. by rewrite Hbelow by lia.
  - intros j Hj. by rewrite Habove by lia.
Qed.

(** X15.  [InsertNodeAfter] with an [old_value] that no occupied slot holds
    does not fail: it writes the new pair into slot 0, over the leftmost
    child position, and moves every occupied slot one place up. *)
Theorem internal_InsertNodeAfter_absent p (old_value : ValueType) key
    (new_value : ValueType) :
  0 ≤ GetSize p < Z.of_nat (length (array p)) →
  (∀ j w, 0 ≤ j < GetSize p → ValueAt p j = Some w → w ≠ old_value) →
  ∃ p',
    InsertNodeAfter p old_value key new_value = Some (GetSize p + 1, p')
    ∧ GetSize p' = GetSize p + 1
    ∧ KeyAt p' 0 = Some key
    ∧ ValueAt p' 0 = Some new_value
    ∧ (∀ j, 0 < j ≤ GetSize p →
         KeyAt p' j = KeyAt p (j - 1) ∧ ValueAt p' j = ValueAt p (j - 1)).
Proof.
  intros Hsize Habsent.
  assert (Hindex : ValueIndex p old_value = Some (-1)).
  { unfold ValueIndex.
    destruct (ValueIndex_from_first p old_value (Z.to_nat (GetSize p)) 0)
      as (r & Hr & [(Hrange & Hat & _)|[-> _]]); [lia..| |done].
    exfalso. by apply (Habsent r old_value ltac:(lia)). }
  destruct (InsertNodeAfter_run p old_value key new_value (-1) Hsize Hindex)
    as (p' & Hrun & Hhdr & _ & Hnew & _ & Habove & _).
  exists p'. split; [done|]. split; [unfold GetSize; by rewrite Hhdr|].
  unfold KeyAt, ValueAt. change (-1 + 1) with 0 in Hnew. rewrite Hnew.
  split; [done|]. split; [done|].
  intros j Hj. by rewrite Habove by lia.
Qed.

Lemma Remove_run p (index : Z) :
  0 ≤ index < GetSize p →
  GetSize p ≤ Z.of_nat (length (array p)) →
  ∃ p',
    Remove p index = Some p'
    ∧ hdr p' = BPlusTreePage.SetSize (hdr p) (GetSize p - 1)
    ∧ length (array p') = length (array p)
    ∧ (∀ j, index ≤ j < GetSize p - 1 →
         slot_read (array p') j = slot_read (array p) (j + 1))
    ∧ (∀ j, ¬ (index ≤ j < GetSize p - 1) →
         slot_read (array p') j = slot_read (array p) j).
Proof.
  intros Hindex Hfit. unfold Remove, for_up, MappingType in *.
  destruct (shift_down_loop (T := KeyType * ValueType)
              (Z.to_nat (GetSize p - (index + 1))) (index + 1) (array p))
    as (a' & Hrun & Hlen & Hmoved & Hkept); [lia..|].
  rewrite Hrun. simpl. eexists. split; [reflexivity|].
  split; [reflexivity|]. split; [exact Hlen|]. split.
  - intros j Hj. apply Hmoved. lia.
  - intros j Hj. apply Hkept. lia.
Qed.

(** X16.  [Remove(index)] on an internal page, for an occupied slot
    [index]: the slots below [index] stay, every later occupied slot moves
    one place down, and the size drops by one. *)
Theorem internal_Remove_compacts p (index : Z) :
  0 ≤ index < GetSize p →
  GetSize p ≤ Z.of_nat (length (array p)) →
  ∃ p',
    Remove p index = Some p'
    ∧ GetSize p' = GetSize p - 1
    ∧ (∀ j, 0 ≤ j < index →
         KeyAt p' j = KeyAt p j ∧ ValueAt p' j = ValueAt p j)
    ∧ (∀ j, index ≤ j < GetSize p - 1 →
         KeyAt p' j = KeyAt p (j + 1) ∧ ValueAt p' j = ValueAt p (j + 1)).
Proof.
  intros Hindex Hfit.
  destruct (Remove_run p index Hindex Hfit)
    as (p' & Hrun & Hhdr & _ & Hmoved & Hkept).
  exists p'. split; [done|]. split; [unfold GetSize; by rewrite Hhdr|].
  unfold KeyAt, ValueAt. split.
  - intros j Hj. by rewrite Hkept by lia.
  - intros j Hj. by rewrite Hmoved by lia.
Qed.

(** X17.  Insert then remove on an internal page: [InsertNodeAfter] followed
    by [Remove] of the slot it wrote gives back the old size and the old
    contents of every occupied slot. *)
Theorem internal_InsertNodeAfter_then_Remove p (old_value : ValueType) key
    (new_value : ValueType) (index : Z) :
  0 ≤ GetSize p < Z.of_nat (length (array p)) →
  ValueIndex p old_value = Some index →
  ∃ p1 p2,
    InsertNodeAfter p old_value key new_value = Some (GetSize p + 1, p1)
    ∧ Remove p1 (index + 1) = Some p2
    ∧ GetSize p2 = GetSize p
    ∧ (∀ j, 0 ≤ j < GetSize p →
         KeyAt p2 j = KeyAt p j ∧ ValueAt p2 j = ValueAt p j).
Proof.
  intros Hsize Hindex.
  destruct (ValueIndex_range p old_value index) as [Hlo Hhi]; [lia|done|].
  destruct (InsertNodeAfter_run p old_value key new_value index Hsize Hindex)
    as (p1 & Hrun1 & Hhdr1 & Hlen1 & _ & Hbelow & Habove & _).
  assert (Hsize1 : GetSize p1 = GetSize p + 1)
    by (unfold GetSize; by rewrite Hhdr1).
  destruct (Remove_run p1 (index + 1)) as (p2 & Hrun2 & Hhdr2 & _ & Hmoved & Hkept).
  { lia. }
  { rewrite Hsize1, Hlen1. lia. }
  exists p1, p2. split; [done|]. split; [done|]. split.
  { unfold GetSize in *. rewrite Hhdr2. simpl. lia. }
  intros j Hj. unfold KeyAt, ValueAt. destruct (decide (j ≤ index)).
  - rewrite Hkept by lia. by rewrite Hbelow by lia.
  - rewrite Hmoved by lia. rewrite Habove by lia.
    by replace (j + 1 - 1) with j by lia.
Qed.

Lemma internal_MoveHalfTo_run p (recipient : page KeyType) (s : Z) :
  GetSize p = s →
  0 ≤ s ≤ Z.of_nat (length (array p)) →
  s `div` 2 ≤ Z.of_nat (length (array recipient)) →
  ∃ r',
    MoveHalfTo p recipient = Some (SetSize p ((s + 1) `div` 2), r')
    ∧ hdr r' = BPlusTreePage.SetSize (hdr recipient) (s `div` 2)
    ∧ length (array r') = length (array recipient)
    ∧ (∀ j, 0 ≤ j < s `div` 2 →
         slot_read (array r') j = slot_read (array p) ((s + 1) `div` 2 + j)).
Proof.
  intros Hs Hrange Hroom.
  assert (Hq : (s + 1) `quot` 2 = (s + 1) `div` 2)
    by (apply Z.quot_div_nonneg; lia).
  assert (Hfloor : s - (s + 1) `div` 2 = s `div` 2)
    by (Z.div_mod_to_equations; lia).
  assert (0 ≤ (s + 1) `div` 2 ≤ s) by (Z.div_mod_to_equations; lia).
  unfold MoveHalfTo, CopyHalfFrom, for_up, MappingType in *. rewrite Hs, Hq.
  destruct (copy_loop (T := KeyType * ValueType) (array p) s
              (s - (s + 1) `div` 2)
              (Z.to_nat (s - (s - (s - (s + 1) `div` 2))))
              (s - (s - (s + 1) `div` 2)) (array recipient))
    as (a' & Hrun & Hlen & Hcopied & _); [lia..|].
  rewrite Hrun. simpl. eexists. split; [reflexivity|].
  split; [simpl; by rewrite Hfloor|]. split; [exact Hlen|].
  intros j Hj.
  replace j with (((s + 1) `div` 2 + j) - s + (s - (s + 1) `div` 2)) at 1
    by lia.
  apply Hcopied. lia.
Qed.

(** X18.  [MoveHalfTo] on internal pages: the donor keeps the lower ⌈s/2⌉
    slots and the recipient receives the upper ⌊s/2⌋ slots from its slot 0
    on, so the donor keeps the larger half when [s] is odd; the parent ids
    stored in the two page headers are not changed. *)
Theorem internal_MoveHalfTo_halves p (recipient : page KeyType) (s : Z) :
  GetSize p = s →
  0 ≤ s ≤ Z.of_nat (length (array p)) →
  s `div` 2 ≤ Z.of_nat (length (array recipient)) →
  ∃ p' r',
    MoveHalfTo p recipient = Some (p', r')
    ∧ GetSize p' = (s + 1) `div` 2
    ∧ GetSize r' = s `div` 2
    ∧ (∀ i, 0 ≤ i < (s + 1) `div` 2 →
         KeyAt p' i = KeyAt p i ∧ ValueAt p' i = ValueAt p i)
    ∧ (∀ j, 0 ≤ j < s `div` 2 →
         KeyAt r' j = KeyAt p ((s + 1) `div` 2 + j)
         ∧ ValueAt r' j = ValueAt p ((s + 1) `div` 2 + j))
    ∧ GetParentPageId p' = GetParentPageId p
    ∧ GetParentPageId r' = GetParentPageId recipient.
Proof.
  intros Hs Hrange Hroom.
  destruct (internal_MoveHalfTo_run p recipient s Hs Hrange Hroom)
    as (r' & Hrun & Hhdr & _ & Hitems).
  exists (SetSize p ((s + 1) `div` 2)), r'. split; [done|].
  split; [done|]. split; [unfold GetSize; by rewrite Hhdr|].
  split; [done|]. split.
  - intros j Hj. unfold KeyAt, ValueAt. by rewrite Hitems by lia.
  - split; [done|]. unfold GetParentPageId. by rewrite Hhdr.
Qed.

(** X19.  [PopulateNewRoot] on a page whose buffer holds two slots writes
    the child of slot 0 and the key and child of slot 1, and nothing else:
    the key of slot 0, every other slot and the whole header keep their
    values. *)
Theorem internal_PopulateNewRoot_writes p (old_value : ValueType) key
    (new_value : ValueType) :
  2 ≤ Z.of_nat (length (array p)) →
  ∃ p',
    PopulateNewRoot p old_value key new_value = Some p'
    ∧ hdr p' = hdr p
    ∧ ValueAt p' 0 = Some old_value
    ∧ KeyAt p' 0 = KeyAt p 0
    ∧ KeyAt p' 1 = Some key
    ∧ ValueAt p' 1 = Some new_value
    ∧ (∀ j, 2 ≤ j → slot_read (array p') j = slot_read (array p) j).
Proof.
  intros Hcap. unfold PopulateNewRoot, SetValueAt, SetKeyAt, MappingType in *.
  destruct (slot_read_in_range (T := KeyType * ValueType) (array p) 0)
    as [s0 Hs0]; [lia|].
  rewrite Hs0. cbn [mbind option_bind].
  destruct (slot_write_in_range (T := KeyType * ValueType) (array p) 0
              (s0.1, old_value)) as [a1 Ha1]; [lia|].
  rewrite Ha1. cbn [mbind option_bind array with_array].
  pose proof (slot_write_length _ _ _ _ Ha1) as Hlen1.
  destruct (slot_read_in_range a1 1) as [s1 Hs1]; [lia|].
  rewrite Hs1. cbn [mbind option_bind].
  destruct (slot_write_in_range a1 1 (key, s1.2)) as [a2 Ha2]; [lia|].
  rewrite Ha2. cbn [mbind option_bind array with_array].
  pose proof (slot_write_length _ _ _ _ Ha2) as Hlen2.
  rewrite (slot_read_write_eq _ _ _ _ Ha2). cbn [mbind option_bind fst].
  destruct (slot_write_in_range a2 1 (key, new_value)) as [a3 Ha3]; [lia|].
  rewrite Ha3. cbn [mbind option_bind].
  eexists. split; [reflexivity|]. split; [reflexivity|].
  unfold KeyAt, ValueAt, MappingType. cbn [array with_array].
  assert (H0 : slot_read a3 0 = Some (s0.1, old_value)).
  { etrans; [exact (slot_read_write_ne _ _ 0 _ _ Ha3 ltac:(lia))|].
    etrans; [exact (slot_read_write_ne _ _ 0 _ _ Ha2 ltac:(lia))|].
    eapply slot_read_write_eq, Ha1. }
  rewrite H0, Hs0, (slot_read_write_eq _ _ _ _ Ha3).
  repeat (split; [done|]).
  intros j Hj.
  etrans; [exact (slot_read_write_ne _ _ j _ _ Ha3 ltac:(lia))|].
  etrans; [exact (slot_read_write_ne _ _ j _ _ Ha2 ltac:(lia))|].
  exact (slot_read_write_ne _ _ j _ _ Ha1 ltac:(lia)).
Qed.
End InternalMoreFacts.

(** ** Routing in the tree *)

Section RoutingFacts.
Import BPlusTreeInternalPage.
Context {KeyType : Type}.
Variable comparator : KeyType → KeyType → Z.
Implicit Types (p : page KeyType) (key : KeyType).

Lemma GetValue_child_cases p key (n : nat) :
  ∀ i,
    1 ≤ i →
    i + Z.of_nat n ≤ Z.of_nat (length (array p)) →
    (∃ r k, i ≤ r < i + Z.of_nat n
            ∧ KeyAt p r = Some k ∧ comparator key k < 0
            ∧ (∀ j kj, i ≤ j < r → KeyAt p j = Some kj →
                 ¬ comparator key kj < 0)
            ∧ BPlusTree.GetValue_child comparator p key n i
              = ValueAt p (r - 1))
    ∨ ((∀ j kj, i ≤ j < i + Z.of_nat n → KeyAt p j = Some kj →
          ¬ comparator key kj < 0)
       ∧ BPlusTree.GetValue_child comparator p key n i
         = ValueAt p (GetSize p - 1)).
Proof.
  induction n as [|n IH]; intros i Hi Hfit; simpl.
  - right. split; [intros; lia|done].
  - destruct (KeyAt_in_range p i) as [k Hk]; [lia|].
    rewrite Hk. simpl. case_decide as Hcmp.
    + left. exists i, k. split; [lia|]. split; [done|]. split; [done|].
      split; [intros; lia|done].
    + assert (Hhere : ∀ j kj, j = i → KeyAt p j = Some kj →
                ¬ comparator key kj < 0) by (intros j kj -> ?; congruence).
      destruct (IH (i + 1))
        as [(r & kr & Hr & Hkr & Hlt & Hbelow & Hres)|[Hnone Hres]]; [lia..| |].
      * left. exists r, kr. split; [lia|]. split; [done|]. split; [done|].
        split; [|done]. intros j kj Hj Hkj.
        destruct (decide (j = i)); [by eapply Hhere|].
        apply (Hbelow j); [lia|done].
      * right. split; [|done]. intros j kj Hj Hkj.
        destruct (decide (j = i)); [by eapply Hhere|].
        apply (Hnone j); [lia|done].
Qed.

Section Agreement.
Hypothesis comparator_eq_lt :
  ∀ a b c, comparator a b = 0 → comparator b c < 0 → comparator a c < 0.

(** X20.  On an internal page with strictly ascending separators, the
    routing loop written out in [GetValueHelper] picks the same child as
    [BPlusTreeInternalPage::Lookup]. *)
Theorem GetValueHelper_routes_like_Lookup p key :
  1 ≤ GetSize p ≤ Z.of_nat (length (array p)) →
  (∀ i ki kj, 1 ≤ i → i + 1 < GetSize p →
     KeyAt p i = Some ki → KeyAt p (i + 1) = Some kj →
     comparator ki kj < 0) →
  BPlusTree.GetValue_child comparator p key (Z.to_nat (GetSize p - 1)) 1
  = Lookup comparator p key.
Proof.
  intros Hsize Hsorted. unfold Lookup.
  destruct (Lookup_scan_stops comparator p key (Z.to_nat (GetSize p - 1)) 1)
    as (r & Hr & Hrange & Hbelow & Hat); [lia..|].
  rewrite Hr. simpl.
  destruct (GetValue_child_cases p key (Z.to_nat (GetSize p - 1)) 1)
    as [(r' & k' & Hr' & Hk' & Hlt' & Hbelow' & Hres)|[Hnone Hres]]; [lia..| |];
    rewrite Hres; clear Hres.
  - (* the loop of GetValueHelper stops at r' *)
    assert (r ≤ r') as Hle.
    { destruct (decide (r ≤ r')); [done|].
      pose proof (Hbelow r' k' ltac:(lia) Hk'). lia. }
    rewrite decide_False by lia.
    destruct Hat as (kr & Hkr & Hngt); [lia|]. rewrite Hkr. simpl.
    case_decide as Hlt.
    + destruct (decide (r = r')) as [->|]; [done|].
      exfalso. apply (Hbelow' r kr); [lia|done|done].
    + assert (Hzero : comparator key kr = 0) by lia.
      assert (r ≠ r') by (intros ->; congruence).
      destruct (decide (r' = r + 1)) as [->|].
      * by replace (r + 1 - 1) with r by lia.
      * exfalso. destruct (KeyAt_in_range p (r + 1)) as [kn Hkn]; [lia|].
        apply (Hbelow' (r + 1) kn); [lia|done|].
        eapply comparator_eq_lt; [exact Hzero|].
        apply (Hsorted r); [lia|lia|done|done].
  - (* the loop of GetValueHelper runs to its end *)
    case_decide as Hend; [done|].
    destruct Hat as (kr & Hkr & Hngt); [lia|]. rewrite Hkr. simpl.
    rewrite decide_False by (apply (Hnone r); [lia|done]).
    pose proof (Hnone r kr ltac:(lia) Hkr) as Hnlt.
    assert (Hzero : comparator key kr = 0) by lia.
    destruct (decide (r + 1 = GetSize p)) as [Hlast|].
    + by replace (GetSize p - 1) with r by lia.
    + exfalso. destruct (KeyAt_in_range p (r + 1)) as [kn Hkn]; [lia|].
      apply (Hnone (r + 1) kn); [lia|done|].
      eapply comparator_eq_lt; [exact Hzero|].
      apply (Hsorted r); [lia|lia|done|done].
Qed.
End Agreement.

Lemma InsertIntoLeaf_loop_runs p key (n : nat) :
  ∀ i (currId : page_id_t),
    1 ≤ i →
    i + Z.of_nat n ≤ Z.of_nat (length (array p)) →
    is_Some (iterate n i 1
               (λ i currId,
                  k ← KeyAt p i;
                  if decide (comparator key k < 0)
                  then ValueAt p (i - 1)
                  else Some currId)
               currId).
Proof.
  induction n as [|n IH]; intros i currId Hi Hfit; simpl; [by eexists|].
  destruct (KeyAt_in_range p i) as [k Hk]; [lia|]. rewrite Hk. simpl.
  case_decide.
  - destruct (ValueAt_in_range p (i - 1)) as [c Hc]; [lia|]. rewrite Hc.
    apply IH; lia.
  - apply IH; lia.
Qed.

Lemma InsertIntoLeaf_step_last p key (currId : page_id_t) :
  1 ≤ GetSize p ≤ Z.of_nat (length (array p)) →
  BPlusTree.InsertIntoLeaf_step comparator p key currId
  = ValueAt p (GetSize p - 1).
Proof.
  intros Hsize. unfold BPlusTree.InsertIntoLeaf_step, for_up.
  destruct (InsertIntoLeaf_loop_runs p key (Z.to_nat (GetSize p - 1)) 1 currId)
    as [c Hc]; [lia..|].
  unfold BPlusTree.Internal.KeyAt, BPlusTree.Internal.ValueAt,
    BPlusTree.Internal.GetSize in *.
  by rewrite Hc.
Qed.

(** X21.  One turn of the descent of [InsertIntoLeaf] on an internal page
    with at least its slot 0 moves to the child in the last occupied slot,
    whatever the key and whatever the separators are. *)
Theorem InsertIntoLeaf_step_takes_last_child p key (currId : page_id_t) :
  1 ≤ GetSize p ≤ Z.of_nat (length (array p)) →
  BPlusTree.InsertIntoLeaf_step comparator p key currId
  = ValueAt p (GetSize p - 1)
  ∧ is_Some (ValueAt p (GetSize p - 1)).
Proof.
  intros Hsize. split; [by apply InsertIntoLeaf_step_last|].
  apply ValueAt_in_range; lia.
Qed.
End RoutingFacts.

(** ** The tree: insertion and lookup *)

Lemma bind_Returns {A B} (m : outcome A) (k : A → outcome B) (b : B) :
  bind m k = Returns b → ∃ a, m = Returns a ∧ k a = Returns b.
Proof. destruct m; simpl; [eauto|done|done]. Qed.

Lemma access_Returns {A} (o : option A) (a : A) :
  access o = Returns a → o = Some a.
Proof. destruct o; simpl; congruence. Qed.

Section TreeMoreFacts.
Import BPlusTree.
Context {KeyType ValueType : Type}.
Variable comparator : KeyType → KeyType → Z.
Variable int_eq_key : Z → KeyType → bool.
Variables PAGE_SIZE HEADER_SIZE sizeof_KeyType sizeof_ValueType : Z.
Variable fresh_leaf : Leaf.page KeyType ValueType.
Variable fresh_internal : Internal.page KeyType.
Implicit Types (t : tree KeyType ValueType) (key : KeyType)
  (value : ValueType) (L : Leaf.page KeyType ValueType).

Local Abbreviation Insert :=
  (Insert comparator int_eq_key PAGE_SIZE HEADER_SIZE sizeof_KeyType
     sizeof_ValueType fresh_leaf fresh_internal).
Local Abbreviation GetValue := (GetValue comparator fresh_leaf fresh_internal).
Local Abbreviation Init :=
  (Leaf.Init PAGE_SIZE HEADER_SIZE sizeof_KeyType sizeof_ValueType).

(** A lookup in a tree whose root frame is a leaf is the leaf's lookup. *)
Lemma GetValue_root_leaf fuel t L key (result : list ValueType) :
  FetchPage (buffer_pool_manager_ t) (root_page_id_ t) = Some (LeafFrame L) →
  BPlusTreePage.IsLeafPage (Leaf.hdr L) = true →
  GetValue (S fuel) t key result
  = match Leaf.Lookup comparator L key with
    | Some (Some v) => Returns (true, result ++ [v])
    | Some None => Returns (false, result)
    | None => Faults
    end.
Proof.
  intros Hroot Hleaf. unfold BPlusTree.GetValue. simpl.
  unfold fetch. rewrite Hroot. simpl. rewrite Hleaf. simpl.
  by destruct (Leaf.Lookup comparator L key) as [[v|]|].
Qed.

(** X22.  Insert into an empty tree, then look the key up: [Insert] makes
    the page handed out by [NewPage] the root, and [GetValue] of the key
    then returns [true] and appends the inserted value, provided a frame
    holds at least one slot and the key compares equal to itself. *)
Theorem Insert_into_empty_then_GetValue fuel fuel' t key value
    (result : list ValueType) :
  root_page_id_ t = INVALID_PAGE_ID →
  0 < Z.of_nat (length (Leaf.array fresh_leaf)) →
  comparator key key = 0 →
  ∃ t',
    Insert fuel t key value = Returns (true, t')
    ∧ root_page_id_ t' = next_page_id (buffer_pool_manager_ t)
    ∧ GetValue (S fuel') t' key result = Returns (true, result ++ [value]).
Proof.
  intros Hempty Hcap Hrefl.
  set (id := next_page_id (buffer_pool_manager_ t)).
  destruct (Insert_appends comparator int_eq_key
              (Init fresh_leaf id INVALID_PAGE_ID) key value)
    as (L' & Hins & Hhdr & _ & Hlen & Hnew & _).
  { exact (conj (Z.le_refl 0) Hcap). }
  { intros j it Hj. change (Leaf.GetSize _) with 0 in Hj. lia. }
  change (Leaf.GetSize (Init fresh_leaf id INVALID_PAGE_ID)) with 0 in *.
  unfold BPlusTree.Insert. rewrite decide_True by done.
  unfold StartNewTree, NewPage, fetch, FetchPage. fold id.
  cbn [buffer_pool_manager_ frames root_page_id_ index_name_].
  rewrite lookup_insert_eq. cbn [access bind as_leaf].
  rewrite Hins. cbn [access bind].
  eexists. split; [reflexivity|]. split; [reflexivity|].
  rewrite (GetValue_root_leaf fuel' _ L').
  - rewrite (Lookup_found comparator L' key 0 (key, value)); try done.
    + unfold Leaf.GetSize. rewrite Hhdr, Hlen. simpl. lia.
    + unfold Leaf.GetSize. rewrite Hhdr. simpl. lia.
    + intros; lia.
  - unfold FetchPage, with_pool, store. simpl. apply lookup_insert_eq.
  - by rewrite Hhdr.
Qed.


(** X24.  Insert then lookup on a tree that is a single leaf: when the leaf
    [Insert] appends (the [== key] test fails on every occupied slot), the
    key compares equal to itself and to no key on the leaf, and the leaf
    stays below its maximal size, [Insert] returns [true], keeps the root,
    and [GetValue] of the key then returns [true] and appends the inserted
    value. *)
Theorem Insert_into_root_leaf_then_GetValue fuel fuel' t L key value
    (result : list ValueType) :
  root_page_id_ t ≠ INVALID_PAGE_ID →
  FetchPage (buffer_pool_manager_ t) (root_page_id_ t) = Some (LeafFrame L) →
  BPlusTreePage.IsLeafPage (Leaf.hdr L) = true →
  0 ≤ Leaf.GetSize L < Z.of_nat (length (Leaf.array L)) →
  Leaf.GetSize L + 1 < Leaf.GetMaxSize L →
  (∀ j it, 0 ≤ j < Leaf.GetSize L → Leaf.GetItem L j = Some it →
     int_eq_key (comparator it.1 key) key = false) →
  comparator key key = 0 →
  (∀ j it, 0 ≤ j < Leaf.GetSize L → Leaf.GetItem L j = Some it →
     comparator key it.1 ≠ 0) →
  ∃ t',
    Insert (S fuel) t key value = Returns (true, t')
    ∧ root_page_id_ t' = root_page_id_ t
    ∧ GetValue (S fuel') t' key result = Returns (true, result ++ [value]).
Proof.
  intros Hroot Hframe Hleaf Hsize Hmax Hnone Hrefl Hfresh.
  destruct (Insert_appends comparator int_eq_key L key value Hsize Hnone)
    as (L' & Hins & Hhdr & _ & Hlen & Hnew & Hold).
  assert (HsizeL' : Leaf.GetSize L' = Leaf.GetSize L + 1)
    by (unfold Leaf.GetSize; by rewrite Hhdr).
  unfold BPlusTree.Insert. rewrite decide_False by done.
  unfold InsertIntoLeaf. simpl. unfold fetch. rewrite Hframe. simpl.
  rewrite Hleaf. simpl. rewrite Hframe. simpl.
  rewrite (Lookup_absent comparator L key) by (lia || done). simpl.
  unfold InsertToLeaf, fetch. rewrite Hframe. simpl.
  rewrite Hins. simpl.
  rewrite decide_True
    by (unfold Leaf.GetMaxSize in *; rewrite HsizeL', Hhdr; simpl; lia).
  simpl. eexists. split; [reflexivity|]. split; [reflexivity|].
  rewrite (GetValue_root_leaf fuel' _ L').
  - rewrite (Lookup_found comparator L' key (Leaf.GetSize L) (key, value));
      try done.
    + rewrite HsizeL', Hlen. lia.
    + lia.
    + intros j it Hj Hit. rewrite Hold in Hit by lia. by eapply Hfresh.
  - unfold FetchPage, with_pool, store. simpl. apply lookup_insert_eq.
  - by rewrite Hhdr.
Qed.
End TreeMoreFacts.

Section TreeSplitFacts.
Import BPlusTree.
Context {KeyType ValueType : Type}.
Variable comparator : KeyType → KeyType → Z.
Variable int_eq_key : Z → KeyType → bool.
Variables PAGE_SIZE HEADER_SIZE sizeof_KeyType sizeof_ValueType : Z.
Variable fresh_leaf : Leaf.page KeyType ValueType.
Variable fresh_internal : Internal.page KeyType.
Implicit Types (t : tree KeyType ValueType) (key : KeyType)
  (value : ValueType) (L : Leaf.page KeyType ValueType).

Local Abbreviation Insert :=
  (Insert comparator int_eq_key PAGE_SIZE HEADER_SIZE sizeof_KeyType
     sizeof_ValueType fresh_leaf fresh_internal).
Local Abbreviation GetValue := (GetValue comparator fresh_leaf fresh_internal).

Lemma leaf_MoveHalfTo_hdr L (R L' R' : Leaf.page KeyType ValueType) :
  Leaf.MoveHalfTo L R = Some (L', R') →
  BPlusTreePage.parent_page_id_ (Leaf.hdr L')
  = BPlusTreePage.parent_page_id_ (Leaf.hdr L).
Proof.
  unfold Leaf.MoveHalfTo. destruct (Leaf.CopyHalfFrom _ _ _); [|done].
  simpl. by intros [= <- _].
Qed.

(** X25.  [GetValue] on an empty tree does not return [false]: it fetches
    page [INVALID_PAGE_ID] and reads through the result, which faults when
    the pool has no such page. *)
Theorem GetValue_on_empty_tree_faults fuel t key (result : list ValueType) :
  root_page_id_ t = INVALID_PAGE_ID →
  FetchPage (buffer_pool_manager_ t) INVALID_PAGE_ID = None →
  GetValue (S fuel) t key result = Faults.
Proof.
  intros Hempty Hnone. unfold BPlusTree.GetValue. simpl.
  unfold fetch. by rewrite Hempty, Hnone.
Qed.

(** X26.  The insert that fills a root leaf up to its maximal size faults:
    the split goes on to [InsertIntoParent], which fetches the parent of
    the old root, page [INVALID_PAGE_ID], and reads through the result
    without asking whether the node is the root. *)
Theorem Insert_filling_root_leaf_faults fuel t L key value :
  root_page_id_ t ≠ INVALID_PAGE_ID →
  FetchPage (buffer_pool_manager_ t) (root_page_id_ t) = Some (LeafFrame L) →
  BPlusTreePage.IsLeafPage (Leaf.hdr L) = true →
  Leaf.GetParentPageId L = INVALID_PAGE_ID →
  0 ≤ Leaf.GetSize L < Z.of_nat (length (Leaf.array L)) →
  Leaf.GetMaxSize L ≤ Leaf.GetSize L + 1 →
  (∀ j it, 0 ≤ j < Leaf.GetSize L → Leaf.GetItem L j = Some it →
     int_eq_key (comparator it.1 key) key = false) →
  (∀ j it, 0 ≤ j < Leaf.GetSize L → Leaf.GetItem L j = Some it →
     comparator key it.1 ≠ 0) →
  FetchPage (buffer_pool_manager_ t) INVALID_PAGE_ID = None →
  FetchPage (buffer_pool_manager_ t)
    (next_page_id (buffer_pool_manager_ t)) = None →
  next_page_id (buffer_pool_manager_ t) ≠ INVALID_PAGE_ID →
  Insert (S fuel) t key value = Faults.
Proof.
  intros Hroot Hframe Hleaf Hparent Hsize Hmax Hnone Hfresh Hinvalid Hnext
    Hnextid.
  destruct (Insert_appends comparator int_eq_key L key value Hsize Hnone)
    as (L' & Hins & Hhdr & _ & Hlen & Hnew & Hold).
  assert (HsizeL' : Leaf.GetSize L' = Leaf.GetSize L + 1)
    by (unfold Leaf.GetSize; by rewrite Hhdr).
  assert (Hne : next_page_id (buffer_pool_manager_ t) ≠ root_page_id_ t).
  { intros Heq. rewrite Heq in Hnext. congruence. }
  unfold FetchPage in *.
  unfold BPlusTree.Insert. rewrite decide_False by done.
  unfold InsertIntoLeaf. simpl. unfold fetch, FetchPage. rewrite Hframe. simpl.
  rewrite Hleaf. simpl. rewrite Hframe. simpl.
  rewrite (Lookup_absent comparator L key) by (lia || done). simpl.
  unfold InsertToLeaf, fetch, FetchPage. rewrite Hframe. simpl.
  rewrite Hins. simpl.
  rewrite decide_False
    by (unfold Leaf.GetMaxSize in *; rewrite HsizeL', Hhdr; simpl; lia).
  rewrite lookup_insert_eq. simpl.
  destruct (Leaf.MoveHalfTo L' _) as [[page newPage]|] eqn:Hmove; [|done].
  simpl. destruct (Leaf.KeyAt newPage 0) as [k|]; [|done]. simpl.
  unfold fetch, FetchPage. simpl.
  rewrite lookup_insert_ne by done. rewrite lookup_insert_eq. simpl.
  rewrite lookup_insert_eq. simpl.
  rewrite (leaf_MoveHalfTo_hdr _ _ _ _ Hmove), Hhdr. simpl.
  unfold Leaf.GetParentPageId in Hparent. rewrite Hparent.
  rewrite !lookup_insert_ne by done. by rewrite Hinvalid.
Qed.
End TreeSplitFacts.

Section TreeHeaderFacts.
Import BPlusTree.
Context {KeyType ValueType : Type}.
Variable comparator : KeyType → KeyType → Z.
Variable int_eq_key : Z → KeyType → bool.
Variables PAGE_SIZE HEADER_SIZE sizeof_KeyType sizeof_ValueType : Z.
Variable fresh_leaf : Leaf.page KeyType ValueType.
Variable fresh_internal : Internal.page KeyType.
Implicit Types (t : tree KeyType ValueType) (key : KeyType)
  (value : ValueType) (bpm : BufferPoolManager KeyType ValueType)
  (r : list (string * page_id_t)).

Local Abbreviation Insert :=
  (Insert comparator int_eq_key PAGE_SIZE HEADER_SIZE sizeof_KeyType
     sizeof_ValueType fresh_leaf fresh_internal).
Local Abbreviation InsertIntoParent := (InsertIntoParent fresh_leaf fresh_internal).
Local Abbreviation InsertToLeaf :=
  (InsertToLeaf comparator int_eq_key PAGE_SIZE HEADER_SIZE sizeof_KeyType
     sizeof_ValueType fresh_leaf fresh_internal).
Local Abbreviation as_leaf := (as_leaf fresh_leaf).
Local Abbreviation as_internal := (as_internal fresh_internal).

(** The header page is in place and page ids handed out are positive. *)
Local Abbreviation intact r bpm :=
  (frames bpm !! HEADER_PAGE_ID = Some (HeaderFrame r) ∧ 0 < next_page_id bpm).

Lemma intact_store r bpm (id : page_id_t) (f : Frame KeyType ValueType) :
  intact r bpm → id ≠ HEADER_PAGE_ID → intact r (store bpm id f).
Proof.
  intros [Hhdr Hnext] Hid. split; [|done]. simpl. by rewrite lookup_insert_ne.
Qed.

Lemma intact_NewPage r bpm :
  intact r bpm →
  intact r (NewPage bpm).2 ∧ (NewPage bpm).1 ≠ HEADER_PAGE_ID.
Proof.
  intros [Hhdr Hnext]. unfold NewPage, HEADER_PAGE_ID in *. simpl.
  split; [split|]; [|lia|lia]. rewrite lookup_insert_ne by lia. done.
Qed.

Lemma leaf_frame_not_header r bpm (id : page_id_t) f L :
  intact r bpm → frames bpm !! id = Some f → as_leaf f = Some L →
  id ≠ HEADER_PAGE_ID.
Proof. intros [Hhdr _] Hf HL ->. rewrite Hhdr in Hf. by injection Hf as <-. Qed.

Lemma internal_frame_not_header r bpm (id : page_id_t) f p :
  intact r bpm → frames bpm !! id = Some f → as_internal f = Some p →
  id ≠ HEADER_PAGE_ID.
Proof. intros [Hhdr _] Hf Hp ->. rewrite Hhdr in Hf. by injection Hf as <-. Qed.

Ltac step H a Hm :=
  apply bind_Returns in H; destruct H as (a & Hm & H);
  try apply access_Returns in Hm.

Lemma InsertIntoParent_intact r fuel :
  ∀ t (old_node new_node : page_id_t) key t',
    InsertIntoParent fuel t old_node key new_node = Returns t' →
    intact r (buffer_pool_manager_ t) →
    intact r (buffer_pool_manager_ t') ∧ index_name_ t' = index_name_ t.
Proof.
  induction fuel as [|fuel IH]; intros t old_node new_node key t' H Hin;
    [done|].
  simpl in H.
  step H fo Hfo. step H ho Hho. step H fn Hfn. step H hn Hhn.
  step H f Hf. step H page Hpage. step H res Hres. destruct res as [n page'].
  pose proof (internal_frame_not_header _ _ _ _ _ Hin Hf Hpage) as Hpid.
  pose proof (intact_store r _ _ (InternalFrame page') Hin Hpid) as Hin1.
  case_decide.
  { injection H as <-. by split. }
  destruct (intact_NewPage r _ Hin1) as [Hin2 HnewId].
  unfold fetch, FetchPage in H. cbn [buffer_pool_manager_ with_pool] in H.
  step H f2 Hf2. step H newPage HnewPage. step H res Hres2.
  destruct res as [page2 newPage2].
  set (bpm3 := store (store _ _ (InternalFrame page2)) _
                 (InternalFrame newPage2)) in H.
  assert (Hin3 : intact r bpm3).
  { apply intact_store; [|done]. by apply intact_store. }
  destruct (BPlusTreePage.IsRootPage _).
  - destruct (intact_NewPage r _ Hin3) as [Hin4 HrootId].
    cbn [buffer_pool_manager_ with_pool index_name_] in H.
    step H f4 Hf4. step H newRoot HnewRoot. step H k Hk. step H v Hv.
    step H newRoot' HnewRoot'. injection H as <-.
    split; [|done]. cbn [buffer_pool_manager_ with_pool].
    by apply intact_store.
  - step H k Hk. apply IH in H; [|done]. done.
Qed.

Lemma InsertToLeaf_intact r fuel t (leafId : page_id_t) key value t' :
  InsertToLeaf fuel t leafId key value = Returns t' →
  intact r (buffer_pool_manager_ t) →
  intact r (buffer_pool_manager_ t') ∧ index_name_ t' = index_name_ t.
Proof.
  intros H Hin. unfold BPlusTree.InsertToLeaf in H.
  step H f Hf. step H page Hpage. step H res Hres. destruct res as [n page'].
  pose proof (leaf_frame_not_header _ _ _ _ _ Hin Hf Hpage) as Hid.
  pose proof (intact_store r _ _ (LeafFrame page') Hin Hid) as Hin1.
  case_decide.
  { injection H as <-. by split. }
  destruct (intact_NewPage r _ Hin1) as [Hin2 HnewId].
  unfold fetch, FetchPage in H. cbn [buffer_pool_manager_ with_pool] in H.
  step H f2 Hf2. step H newPage HnewPage. step H res Hres2.
  destruct res as [page2 newPage2].
  set (bpm3 := store (store _ _ (LeafFrame page2)) _ (LeafFrame newPage2)) in H.
  assert (Hin3 : intact r bpm3).
  { apply intact_store; [|done]. by apply intact_store. }
  step H k Hk. apply (InsertIntoParent_intact r) in H; [|done]. done.
Qed.

(** X27.  No [Insert] writes the header page: whatever it does to the tree
    (new root leaf, insertion into a leaf, splits, a new internal root), the
    header page holds the same records afterwards, so the root id recorded
    under the index name is the one recorded before the call. *)
Theorem Insert_keeps_header_page fuel t key value (b : bool) t' r :
  FetchPage (buffer_pool_manager_ t) HEADER_PAGE_ID = Some (HeaderFrame r) →
  0 < next_page_id (buffer_pool_manager_ t) →
  Insert fuel t key value = Returns (b, t') →
  FetchPage (buffer_pool_manager_ t') HEADER_PAGE_ID = Some (HeaderFrame r)
  ∧ index_name_ t' = index_name_ t
  ∧ persisted_root t' = persisted_root t.
Proof.
  intros Hhdr Hnext H.
  assert (Hin : intact r (buffer_pool_manager_ t)) by done.
  assert (intact r (buffer_pool_manager_ t') ∧ index_name_ t' = index_name_ t)
    as [[Hhdr' _] Hname].
  { unfold BPlusTree.Insert in H. case_decide.
    - step H t1 Ht1. injection H as _ <-.
      unfold StartNewTree in Ht1.
      destruct (intact_NewPage r _ Hin) as [Hin1 Hid].
      destruct (NewPage (buffer_pool_manager_ t)) as [id bpm] eqn:Hnew.
      simpl in Hin1, Hid.
      step Ht1 f Hf. step Ht1 root Hroot. step Ht1 res Hres.
      destruct res as [n root']. injection Ht1 as <-.
      split; [|done]. cbn [buffer_pool_manager_ with_pool].
      by apply intact_store.
    - step H res Hres. destruct res as [b0 t1]. injection H as _ <-.
      unfold InsertIntoLeaf in Hres.
      step Hres currId HcurrId. step Hres f Hf. step Hres curr Hcurr.
      step Hres found Hfound. destruct found as [v|].
      + injection Hres as _ <-. by split.
      + step Hres t2 Ht2. injection Hres as _ <-.
        by apply (InsertToLeaf_intact r) in Ht2. }
  split; [done|]. split; [done|].
  unfold persisted_root, FetchPage in *. by rewrite Hhdr', Hhdr, Hname.
Qed.
End TreeHeaderFacts.

Section TreeDescentFacts.
Import BPlusTree.
Context {KeyType ValueType : Type}.
Variable comparator : KeyType → KeyType → Z.
Variable fresh_leaf : Leaf.page KeyType ValueType.
Variable fresh_internal : Internal.page KeyType.
Implicit Types (t : tree KeyType ValueType) (key : KeyType)
  (p : Internal.page KeyType) (L : Leaf.page KeyType ValueType).

(** X28.  In a tree whose root is an internal page over leaves, the descent
    of [InsertIntoLeaf] ends at the leaf in the root's last occupied slot
    for every key, also for keys below the first separator. *)
Theorem InsertIntoLeaf_descends_to_last_leaf fuel t p L (child : page_id_t)
    key :
  FetchPage (buffer_pool_manager_ t) (root_page_id_ t)
    = Some (InternalFrame p) →
  BPlusTreePage.IsLeafPage (Internal.hdr p) = false →
  1 ≤ Internal.GetSize p ≤ Z.of_nat (length (Internal.array p)) →
  Internal.ValueAt p (Internal.GetSize p - 1) = Some child →
  FetchPage (buffer_pool_manager_ t) child = Some (LeafFrame L) →
  BPlusTreePage.IsLeafPage (Leaf.hdr L) = true →
  InsertIntoLeaf_descend comparator fresh_leaf fresh_internal (S (S fuel)) t
    key (root_page_id_ t)
  = Returns child.
Proof.
  intros Hroot Hinternal Hsize Hlast Hchild Hleaf.
  cbn [InsertIntoLeaf_descend]. unfold fetch. rewrite Hroot.
  cbn [access bind as_header as_internal]. rewrite Hinternal.
  cbn [access bind]. rewrite (InsertIntoLeaf_step_last comparator) by done.
  rewrite Hlast. cbn [access bind]. rewrite Hchild.
  cbn [access bind as_header]. by rewrite Hleaf.
Qed.

End TreeDescentFacts.

(** ** The further properties at concrete inputs *)

Section MoreExamples.
Import Scenario ScenarioMore.

Ltac finish_slot H := vm_compute in H; injection H as <-; vm_compute; done.

(** Settles a statement about every occupied slot of a concrete page. *)
Ltac slot_cases :=
  let j := fresh "j" in
  let it := fresh "it" in
  let Hj := fresh "Hj" in
  let Hit := fresh "Hit" in
  intros j it Hj Hit; cbn in Hj;
  first [ exfalso; lia
        | assert (j = 0) as -> by lia; finish_slot Hit
        | assert (j = 0 ∨ j = 1) as [-> | ->] by lia; finish_slot Hit
        | assert (j = 0 ∨ j = 1 ∨ j = 2) as [-> | [-> | ->]] by lia;
          finish_slot Hit ].

Ltac bounds := solve [cbn; lia].

Lemma leaf_Lookup_first_match_witness :
  is_Some (Leaf.Lookup IntegerComparator leaf12 2).
Proof.
  destruct (leaf_Lookup_first_match IntegerComparator leaf12 2)
    as [(r & it & H & _)|[H _]]; [bounds| |]; rewrite H; by eexists.
Defined.

Lemma leaf_Insert_appends_witness :
  ∃ L',
    Leaf.Insert IntegerComparator never_eq leaf12 3 30
      = Some (Leaf.GetSize leaf12 + 1, L')
    ∧ Leaf.GetItem L' (Leaf.GetSize leaf12) = Some (3, 30).
Proof.
  destruct (leaf_Insert_appends IntegerComparator never_eq leaf12 3 30)
    as (L' & H & _ & _ & _ & Hnew & _); [bounds|slot_cases|].
  by exists L'.
Defined.

Lemma leaf_Insert_skips_witness :
  Leaf.Insert IntegerComparator int_eq leaf7 1 99
  = Some (Leaf.GetSize leaf7, leaf7).
Proof.
  apply (leaf_Insert_skips IntegerComparator int_eq leaf7 1 99 0 (7, 70));
    [bounds|bounds|reflexivity|reflexivity].
Defined.

Lemma leaf_Insert_then_Lookup_witness :
  ∃ L',
    Leaf.Insert IntegerComparator never_eq leaf12 3 30
      = Some (Leaf.GetSize leaf12 + 1, L')
    ∧ Leaf.Lookup IntegerComparator L' 3 = Some (Some 30).
Proof.
  apply (leaf_Insert_then_Lookup IntegerComparator never_eq leaf12 3 30);
    [bounds|slot_cases|reflexivity|slot_cases].
Defined.

Lemma leaf_Insert_keeps_other_lookups_witness :
  ∃ L',
    Leaf.Insert IntegerComparator never_eq leaf12 3 30
      = Some (Leaf.GetSize leaf12 + 1, L')
    ∧ Leaf.Lookup IntegerComparator L' 1 = Leaf.Lookup IntegerComparator leaf12 1.
Proof.
  apply (leaf_Insert_keeps_other_lookups IntegerComparator never_eq leaf12 3
           30 1); [bounds|slot_cases|by vm_compute].
Defined.

Lemma leaf_Remove_absent_witness :
  Leaf.RemoveAndDeleteRecord IntegerComparator leaf12 3
  = Some (Leaf.GetSize leaf12, leaf12).
Proof.
  apply (leaf_Remove_absent IntegerComparator leaf12 3); [bounds|slot_cases].
Defined.

Lemma leaf_Remove_compacts_witness :
  ∃ L',
    Leaf.RemoveAndDeleteRecord IntegerComparator leaf123 2
      = Some (Leaf.GetSize leaf123 - 1, L')
    ∧ Leaf.GetItem L' 1 = Leaf.GetItem leaf123 2.
Proof.
  destruct (leaf_Remove_compacts IntegerComparator leaf123 2 1 (2, 20))
    as (L' & H & _ & _ & _ & Hmoved);
    [bounds|bounds|reflexivity|reflexivity|slot_cases|].
  exists L'. split; [done|]. apply (Hmoved 1). cbn. lia.
Defined.

Lemma leaf_Remove_then_Lookup_witness :
  ∃ L',
    Leaf.RemoveAndDeleteRecord IntegerComparator leaf123 2
      = Some (Leaf.GetSize leaf123 - 1, L')
    ∧ Leaf.Lookup IntegerComparator L' 2 = Some None.
Proof.
  apply (leaf_Remove_then_Lookup IntegerComparator leaf123 2 1 (2, 20));
    [bounds|bounds|reflexivity|reflexivity|].
  intros j it Hj Hne Hit. cbn in Hj.
  assert (j = 0 ∨ j = 2) as [-> | ->] by lia; finish_slot Hit.
Defined.

Lemma leaf_Remove_keeps_other_lookups_witness :
  ∃ L',
    Leaf.RemoveAndDeleteRecord IntegerComparator leaf123 2
      = Some (Leaf.GetSize leaf123 - 1, L')
    ∧ Leaf.Lookup IntegerComparator L' 3
      = Leaf.Lookup IntegerComparator leaf123 3.
Proof.
  apply (leaf_Remove_keeps_other_lookups IntegerComparator leaf123 2 1
           (2, 20) 3);
    [bounds|bounds|reflexivity|reflexivity|slot_cases|by vm_compute].
Defined.

Lemma leaf_MoveAllTo_appends_witness :
  ∃ L' R',
    Leaf.MoveAllTo leaf12 leaf7 = Some (L', R')
    ∧ Leaf.GetSize L' = 0
    ∧ Leaf.GetSize R' = Leaf.GetSize leaf7 + Leaf.GetSize leaf12.
Proof.
  destruct (leaf_MoveAllTo_appends leaf12 leaf7)
    as (L' & R' & H & HL & _ & HR & _); [bounds|bounds|bounds|].
  by exists L', R'.
Defined.

Lemma leaf_split_then_merge_witness :
  ∃ L1 R1 R2 L2,
    Leaf.MoveHalfTo leaf123 zero_leaf = Some (L1, R1)
    ∧ Leaf.MoveAllTo R1 L1 = Some (R2, L2)
    ∧ Leaf.GetSize L2 = 3
    ∧ Leaf.GetSize R2 = 0
    ∧ (∀ j, 0 ≤ j < 3 → Leaf.GetItem L2 j = Leaf.GetItem leaf123 j).
Proof.
  apply (leaf_split_then_merge leaf123 zero_leaf 3);
    [reflexivity|bounds|by vm_compute].
Defined.

Lemma leaf_KeyIndex_agrees_with_Lookup_witness :
  ∃ r k,
    Leaf.KeyIndex IntegerComparator leaf12 2 = Some r
    ∧ 0 ≤ r < Leaf.GetSize leaf12
    ∧ Leaf.GetItem leaf12 r = Some (k, 20)
    ∧ IntegerComparator 2 k = 0.
Proof.
  apply (leaf_KeyIndex_agrees_with_Lookup IntegerComparator
           IntegerComparator_flip IntegerComparator_lt_eq leaf12 2 20);
    [bounds| |reflexivity].
  intros i j ki kj Hij Hj Hki Hkj. cbn in Hj.
  assert (i = 0) as -> by lia. assert (j = 1) as -> by lia.
  vm_compute in Hki, Hkj. injection Hki as <-. injection Hkj as <-.
  reflexivity.
Defined.

Lemma internal_ValueIndex_first_witness :
  is_Some (Internal.ValueIndex node36 2).
Proof.
  destruct (internal_ValueIndex_first node36 2) as (r & H & _); [bounds|].
  rewrite H. by eexists.
Defined.

Lemma internal_InsertNodeAfter_places_witness :
  ∃ p',
    Internal.InsertNodeAfter node36 2 4 9
      = Some (Internal.GetSize node36 + 1, p')
    ∧ Internal.KeyAt p' 2 = Some 4
    ∧ Internal.ValueAt p' 2 = Some 9.
Proof.
  destruct (internal_InsertNodeAfter_places node36 2 4 9 1)
    as (p' & H & _ & Hk & Hv & _); [bounds|reflexivity|].
  by exists p'.
Defined.

Lemma internal_InsertNodeAfter_absent_witness :
  ∃ p',
    Internal.InsertNodeAfter node36 7 4 9
      = Some (Internal.GetSize node36 + 1, p')
    ∧ Internal.KeyAt p' 0 = Some 4
    ∧ Internal.ValueAt p' 0 = Some 9.
Proof.
  destruct (internal_InsertNodeAfter_absent node36 7 4 9)
    as (p' & H & _ & Hk & Hv & _); [bounds|slot_cases|].
  by exists p'.
Defined.

Lemma internal_Remove_compacts_witness :
  ∃ p',
    Internal.Remove node36 1 = Some p'
    ∧ Internal.GetSize p' = Internal.GetSize node36 - 1.
Proof.
  destruct (internal_Remove_compacts node36 1) as (p' & H & Hs & _);
    [bounds|bounds|].
  by exists p'.
Defined.

Lemma internal_InsertNodeAfter_then_Remove_witness :
  ∃ p1 p2,
    Internal.InsertNodeAfter node36 2 4 9
      = Some (Internal.GetSize node36 + 1, p1)
    ∧ Internal.Remove p1 (1 + 1) = Some p2
    ∧ Internal.GetSize p2 = Internal.GetSize node36
    ∧ (∀ j, 0 ≤ j < Internal.GetSize node36 →
         Internal.KeyAt p2 j = Internal.KeyAt node36 j
         ∧ Internal.ValueAt p2 j = Internal.ValueAt node36 j).
Proof.
  apply (internal_InsertNodeAfter_then_Remove node36 2 4 9 1);
    [bounds|reflexivity].
Defined.

Lemma internal_MoveHalfTo_halves_witness :
  ∃ p' r',
    Internal.MoveHalfTo node36 zero_internal = Some (p', r')
    ∧ Internal.GetSize p' = (3 + 1) `div` 2
    ∧ Internal.GetSize r' = 3 `div` 2.
Proof.
  destruct (internal_MoveHalfTo_halves node36 zero_internal 3)
    as (p' & r' & H & Hp & Hr & _); [reflexivity|bounds|by vm_compute|].
  by exists p', r'.
Defined.

Lemma internal_PopulateNewRoot_writes_witness :
  ∃ p',
    Internal.PopulateNewRoot zero_internal 1 3 2 = Some p'
    ∧ Internal.hdr p' = Internal.hdr zero_internal.
Proof.
  destruct (internal_PopulateNewRoot_writes zero_internal 1 3 2)
    as (p' & H & Hh & _); [bounds|].
  by exists p'.
Defined.

Lemma GetValueHelper_routes_like_Lookup_witness :
  BPlusTree.GetValue_child IntegerComparator node36 3
    (Z.to_nat (Internal.GetSize node36 - 1)) 1
  = Internal.Lookup IntegerComparator node36 3.
Proof.
  apply (GetValueHelper_routes_like_Lookup IntegerComparator
           IntegerComparator_eq_lt node36 3); [bounds|].
  intros i ki kj Hi Hj Hki Hkj. cbn in Hj. assert (i = 1) as -> by lia.
  vm_compute in Hki, Hkj. injection Hki as <-. injection Hkj as <-.
  reflexivity.
Defined.

Lemma InsertIntoLeaf_step_takes_last_child_witness :
  BPlusTree.InsertIntoLeaf_step IntegerComparator node36 0 4
  = Internal.ValueAt node36 (Internal.GetSize node36 - 1)
  ∧ is_Some (Internal.ValueAt node36 (Internal.GetSize node36 - 1)).
Proof.
  apply (InsertIntoLeaf_step_takes_last_child IntegerComparator node36 0 4).
  bounds.
Defined.

Lemma Insert_into_empty_then_GetValue_witness :
  ∃ t',
    Insert never_eq 1 empty_tree 1 1 = Returns (true, t')
    ∧ BPlusTree.root_page_id_ t'
      = BPlusTree.next_page_id (BPlusTree.buffer_pool_manager_ empty_tree)
    ∧ GetValue 1 t' 1 [] = Returns (true, [] ++ [1]).
Proof.
  apply (Insert_into_empty_then_GetValue IntegerComparator never_eq 4096 28
           8 8 zero_leaf zero_internal 1 0 empty_tree 1 1 []);
    [reflexivity|bounds|reflexivity].
Defined.


Lemma Insert_into_root_leaf_then_GetValue_witness :
  ∃ t',
    Insert never_eq 1 tree12 3 30 = Returns (true, t')
    ∧ BPlusTree.root_page_id_ t' = BPlusTree.root_page_id_ tree12
    ∧ GetValue 1 t' 3 [] = Returns (true, [] ++ [30]).
Proof.
  apply (Insert_into_root_leaf_then_GetValue IntegerComparator never_eq
           4096 28 8 8 zero_leaf zero_internal 0 0 tree12 leaf12 3 30 []);
    [done|reflexivity|reflexivity|bounds|bounds|slot_cases|reflexivity
    |slot_cases].
Defined.

Lemma GetValue_on_empty_tree_faults_witness :
  GetValue 1 empty_tree 1 [] = Faults.
Proof.
  apply (GetValue_on_empty_tree_faults IntegerComparator zero_leaf
           zero_internal 0 empty_tree 1 []); reflexivity.
Defined.

Lemma Insert_filling_root_leaf_faults_witness :
  Insert never_eq 1 tree12_max3 3 30 = Faults.
Proof.
  apply (Insert_filling_root_leaf_faults IntegerComparator never_eq 4096 28
           8 8 zero_leaf zero_internal 0 tree12_max3 leaf12_max3 3 30);
    [done|reflexivity|reflexivity|reflexivity|bounds|bounds|slot_cases
    |slot_cases|reflexivity|reflexivity|done].
Defined.

Lemma Insert_keeps_header_page_witness :
  ∃ t',
    Insert never_eq 1 empty_tree 1 1 = Returns (true, t')
    ∧ persisted_root t' = persisted_root empty_tree.
Proof.
  eexists. split; [vm_compute; reflexivity|].
  eapply (Insert_keeps_header_page IntegerComparator never_eq 4096 28 8 8
            zero_leaf zero_internal 1 empty_tree 1 1 true _ []);
    [reflexivity|bounds|vm_compute; reflexivity].
Defined.

Lemma InsertIntoLeaf_descends_to_last_leaf_witness :
  BPlusTree.InsertIntoLeaf_descend IntegerComparator zero_leaf zero_internal
    2 two_level_tree 0 (BPlusTree.root_page_id_ two_level_tree)
  = Returns 2.
Proof.
  apply (InsertIntoLeaf_descends_to_last_leaf IntegerComparator zero_leaf
           zero_internal 0 two_level_tree root13 leaf345 2 0);
    [reflexivity|reflexivity|bounds|reflexivity|reflexivity|reflexivity].
Defined.

End MoreExamples.
